(** * localstack.services.moto: dispatching requests to moto in process

    A shallow embedding of [localstack/services/moto.py].  The module calls
    moto's path-routed handlers without an HTTP round trip: it builds a
    werkzeug URL map per service from the backend's [flask_paths], caches it
    with [functools.lru_cache], resolves the handler for a request path,
    invokes it, and translates the HTTP-shaped answer into a parsed service
    response or a [CommonServiceException].

    Python exceptions and the process-wide state (the lru cache, moto's
    backends) are threaded through a state-and-exception monad.  A request
    context is passed by value; the header that [dispatch_to_moto] appends to
    the request in place shows in the request the handler receives, which the
    state logs.  What the module imports from moto, werkzeug and the rest of
    localstack is gathered in the class [Imports].

    The second part embeds [localstack/testing/snapshots/report.py], whose
    [render_diff] prints the difference between a recorded and an actual
    snapshot; what it imports is gathered in the class [Json]. *)

From Stdlib Require Import ZArith Lia Ascii String.
From stdpp Require Import gmap strings list fin_maps lexico sorting pretty.

Set Warnings "-register-all".
Open Scope string_scope.
Open Scope Z_scope.
Open Scope list_scope.

(** ** Python values *)

(** The values a parsed response or a service request holds. *)
Inductive pyval : Type :=
  | PyNone
  | PyBool (b : bool)
  | PyInt (z : Z)
  | PyStr (s : string)
  | PyList (l : list pyval)
  | PyDict (d : gmap string pyval).

(** [d.get(key, default)] on a dict. *)
Definition dict_get (d : gmap string pyval) (key : string) (dflt : pyval) : pyval :=
  default dflt (d !! key).

(** ** Exceptions *)

Inductive exn : Type :=
  | CommonServiceException (code message : pyval) (status_code : Z) (sender_fault : bool)
  | RESTError (error_type message : string) (code : Z)
  | NotImplementedError
  | KeyError (key : string)
  | AttributeError (attr : string)
  | NotFound
  | Exception (name : string).

Inductive result (A : Type) : Type :=
  | Ok (a : A)
  | Raise (e : exn).
Arguments Ok {A} a.
Arguments Raise {A} e.

(** ** HTTP shapes *)

(** werkzeug's [Headers]: an ordered multi-dict, a list of (key, value). *)
Definition Headers : Type := list (string * string).

(** [Headers.add(key, value)] appends one item. *)
Definition Headers_add (h : Headers) (key value : string) : Headers :=
  h ++ [(key, value)].

(** [Headers.extend(other)] adds every item of [other], in order. *)
Definition Headers_extend (h other : Headers) : Headers :=
  foldl (fun acc kv => Headers_add acc kv.1 kv.2) h other.

Record HttpRequest : Type := mkHttpRequest {
  method : string;
  path : string;
  url : string;
  headers : Headers;
  data : string
}.

(** [MotoResponse = HttpBackendResponse]: the tuple (status, headers, content). *)
Definition MotoResponse : Type := (Z * gmap string string * string)%type.

(** [localstack.http.Response], of which [HttpResponse] is an alias. *)
Record Response : Type := mkResponse {
  response : string;
  status : Z;
  response_headers : gmap string string
}.
Definition HttpResponse : Type := Response.

Record ServiceModel : Type := mkServiceModel { service_name : string }.
Record OperationModel : Type := mkOperationModel { name : string }.

Record RequestContext : Type := mkRequestContext {
  service : ServiceModel;
  operation : OperationModel;
  region : string;
  request : HttpRequest
}.

(** [ServiceRequest] and [ServiceResponse] are dicts keyed by strings. *)
Abbreviation ServiceRequest := (gmap string pyval) (only parsing).
Abbreviation ServiceResponse := (gmap string pyval) (only parsing).

Definition set_headers (r : HttpRequest) (h : Headers) : HttpRequest :=
  mkHttpRequest (method r) (path r) (url r) h (data r).

Definition set_request (c : RequestContext) (r : HttpRequest) : RequestContext :=
  mkRequestContext (service c) (operation c) (region c) r.

(** ** werkzeug's routing, as far as this module uses it *)

(** werkzeug does not try the rules of a map in the order of their
    registration but in the order of their weight.  In werkzeug 2.1
    [Map.update] sorts the rules by [Rule.match_compare_key()], the tuple
    [(bool(arguments), -len(static_weights), static_weights,
      -len(argument_weights), argument_weights)],
    compared as Python compares tuples and lists: lexicographically
    ([False < True]); the rules without variables come first. *)
Definition compare_key : Type :=
  (bool * (Z * (list (Z * Z) * (Z * list Z))))%type.

Definition key_lt (a b : compare_key) : Prop := lexico a b.
Definition key_le (a b : compare_key) : Prop := ¬ lexico b a.

Section Sorting.
Context {A : Type} (key : A → compare_key).

(** [list.sort(key=...)] is stable.  The elements are inserted from the
    last to the first; each goes before the first element whose key is not
    smaller than its own, so elements with equal keys keep their order. *)
Fixpoint sort_insert (x : A) (l : list A) : list A :=
  match l with
  | [] => [x]
  | y :: l' =>
      if decide (key_le (key x) (key y)) then x :: y :: l'
      else y :: sort_insert x l'
  end.

Fixpoint stable_sort (l : list A) : list A :=
  match l with
  | [] => []
  | x :: l' => sort_insert x (stable_sort l')
  end.

(** The element a scan of the sorted list for [P] stops at, read off the
    unsorted list: of the elements that satisfy [P], the earliest one of
    least key. *)
Fixpoint first_by_weight (P : A → bool) (l : list A) : option A :=
  match l with
  | [] => None
  | x :: l' =>
      if P x then
        match first_by_weight P l' with
        | Some y => if decide (key_lt (key y) (key x)) then Some y else Some x
        | None => Some x
        end
      else first_by_weight P l'
  end.
End Sorting.

(** ** werkzeug [Rule] and [Map] *)

Record Rule (Handler : Type) : Type := mkRule {
  rule : string;
  endpoint : Handler;
  strict_slashes : bool
}.
Arguments mkRule {Handler} rule endpoint strict_slashes.
Arguments rule {Handler} r.
Arguments endpoint {Handler} r.
Arguments strict_slashes {Handler} r.

Record Map (Handler : Type) : Type := mkMap {
  _rules : list (Rule Handler);
  converters : list string
}.
Arguments mkMap {Handler} _rules converters.
Arguments _rules {Handler} m.
Arguments converters {Handler} m.

(** ** The state of the process *)

(** moto's own state, the cache that [lru_cache] keeps for
    [get_moto_routing_table] (most recently used first), and two ghost logs:
    the services the table builder ran for and the handler calls made, newest
    first. *)
Record World_of (Handler BackendState : Type) : Type := mkWorld {
  moto_state : BackendState;
  routing_cache : list (string * Map Handler);
  builder_log : list string;
  handler_log : list (Handler * HttpRequest)
}.
Arguments mkWorld {Handler BackendState} moto_state routing_cache builder_log handler_log.
Arguments moto_state {Handler BackendState} w.
Arguments routing_cache {Handler BackendState} w.
Arguments builder_log {Handler BackendState} w.
Arguments handler_log {Handler BackendState} w.

(** A service request handler answers with a parsed response or with an
    HTTP response. *)
Inductive handler_result : Type :=
  | ParsedResponse (r : ServiceResponse)
  | RawResponse (r : HttpResponse).

(** [lru_cache] looks the key up and stores the result under its lock, and
    calls the wrapped function outside of it (the wrapped function may be
    called more than once if another thread makes an additional call before
    the initial call has been completed and cached, in the words of
    [functools]).  A caller is therefore at one of four points, and callers
    in other threads may run between them. *)
Inductive caller_of (Handler : Type) : Type :=
  | Calling (key : string)
  | Missed (key : string)
  | Computed (key : string) (v : Map Handler)
  | Returned (r : result (Map Handler)).
Arguments Calling {Handler} key.
Arguments Missed {Handler} key.
Arguments Computed {Handler} key v.
Arguments Returned {Handler} r.

(** ** What the module imports *)

(** What [moto_backends.get_backend(service)] returns: a [BackendDict]
    (account id, then region) or a plain dict of backends. *)
Inductive backend_dict (Backend : Type) : Type :=
  | BackendDict (accounts : gmap string (gmap string Backend))
  | PlainDict (backends : gmap string Backend).
Arguments BackendDict {Backend} accounts.
Arguments PlainDict {Backend} backends.

Class Imports : Type := {
  (** moto's handlers are opaque callables; [Backend] is a backend instance
      and [BackendState] whatever moto keeps behind its handlers. *)
  Handler : Type;
  Backend : Type;
  BackendState : Type;
  (** [backend.flask_paths.items()], in the order of the dict. *)
  flask_paths : Backend → list (string * Handler);
  (** [moto.backends.get_backend(service)]: the entry of the service in
      moto's table of backends, whose lookup raises [KeyError] for a name
      that is not in it. *)
  get_backend : string → option (backend_dict Backend);
  (** [localstack.constants.DEFAULT_AWS_ACCOUNT_ID] *)
  DEFAULT_AWS_ACCOUNT_ID : string;
  (** [localstack.aws.accounts.get_aws_account_id()] *)
  get_aws_account_id : string;
  (** Calling a handler: [handler(request, full_url, headers)]. *)
  invoke : Handler → HttpRequest → string → Headers → BackendState →
           result MotoResponse * BackendState;
  (** [localstack.aws.client.parse_response(operation, response)] *)
  parse_response : OperationModel → Response → result ServiceResponse;
  (** [localstack.aws.forwarder.create_aws_request_context(service_name,
      action, parameters, region)] *)
  create_aws_request_context :
    string → string → ServiceRequest → string → result RequestContext;
  (** [Rule.compile()] turns the pattern into a regular expression and into
      the weights of [match_compare_key]; both are werkzeug's.
      [rule_match r p] says that [r.match(p)] is not [None]. *)
  rule_match : Rule Handler → string → bool;
  match_compare_key : Rule Handler → compare_key
}.

Abbreviation World := (World_of Handler BackendState).
Abbreviation caller := (caller_of Handler).

(** ** The module *)

Section Moto.
Context {imports : Imports}.

(** [Map()]: no rules, werkzeug's default converters. *)
Definition DEFAULT_CONVERTERS : list string :=
  [ "default"; "string"; "any"; "path"; "int"; "float"; "uuid" ].

Definition Map_new : Map Handler := mkMap [] DEFAULT_CONVERTERS.

(** [url_map.converters[name] = ...]: the names of the converters, the
    one set last first. *)
Definition Map_set_converter (m : Map Handler) (name : string) : Map Handler :=
  mkMap (_rules m) (name :: filter (fun c => c ≠ name) (converters m)).

(** [url_map.add(rule)] *)
Definition Map_add (m : Map Handler) (r : Rule Handler) : Map Handler :=
  mkMap (_rules m ++ [r]) (converters m).

(** [Map.update()] sorts the rules by [match_compare_key]; [iter_rules] and
    [MapAdapter.match] call it first.  The sort is stable and a second sort
    changes nothing, so it is written here as a function of the registered
    rules. *)
Definition Map_update (m : Map Handler) : list (Rule Handler) :=
  stable_sort match_compare_key (_rules m).

(** [next(url_map.iter_rules())] *)
Definition Map_first_rule (m : Map Handler) : option (Rule Handler) :=
  head (Map_update m).

(** [url_map.bind(host).match(path_info=path)]: the first rule, in the sorted
    order, that matches; [NotFound] when there is none.  Only the endpoint of
    the answer is used. *)
Definition MapAdapter_match (m : Map Handler) (path_info : string) : result Handler :=
  match find (fun r => rule_match r path_info) (Map_update m) with
  | Some r => Ok (endpoint r)
  | None => Raise NotFound
  end.

(** *** State and exceptions *)

Definition M (A : Type) : Type := World → result A * World.

Definition ret {A} (a : A) : M A := fun w => (Ok a, w).
Definition raise {A} (e : exn) : M A := fun w => (Raise e, w).
Definition bind {A B} (m : M A) (k : A → M B) : M B :=
  fun w => match m w with
           | (Ok a, w') => k a w'
           | (Raise e, w') => (Raise e, w')
           end.
Definition lift {A} (r : result A) : M A := fun w => (r, w).

(** [try: m except ...: h e] *)
Definition try_except {A} (m : M A) (h : exn → M A) : M A :=
  fun w => match m w with
           | (Ok a, w') => (Ok a, w')
           | (Raise e, w') => h e w'
           end.

Notation "x <- m ;; k" := (bind m (fun x => k))
  (at level 100, m at next level, right associativity).

(** [d[key]] *)
Definition getitem {V} (d : gmap string V) (key : string) : M V :=
  match d !! key with
  | Some v => ret v
  | None => raise (KeyError key)
  end.

Definition set_routing_cache (w : World) (c : list (string * Map Handler)) : World :=
  mkWorld (moto_state w) c (builder_log w) (handler_log w).

(** *** [load_moto_routing_table] *)

Definition log_builder (service : string) : M unit :=
  fun w => (Ok tt, mkWorld (moto_state w) (routing_cache w)
                           (service :: builder_log w) (handler_log w)).

(** A lookup in one of moto's dicts raises [KeyError] where the dict has no
    entry. *)
Definition load_moto_routing_table (service : string) : M (Map Handler) :=
  _ <- log_builder service ;;
  backend_dict <-
    match get_backend service with
    | Some bd => ret bd
    | None => raise (KeyError service)
    end ;;
  backend <-
    match backend_dict with
    | BackendDict accounts =>
        regions <- getitem accounts DEFAULT_AWS_ACCOUNT_ID ;;
        if decide (is_Some (regions !! "us-east-1")) then
          regions <- getitem accounts DEFAULT_AWS_ACCOUNT_ID ;;
          getitem regions "us-east-1"
        else
          regions <- getitem accounts DEFAULT_AWS_ACCOUNT_ID ;;
          getitem regions "global"
    | PlainDict backends => getitem backends "global"
    end ;;
  let url_map := Map_new in
  let url_map := Map_set_converter url_map "regex" in
  ret (foldl (fun url_map item =>
                let url_path := item.1 in
                let handler := item.2 in
                let strict_slashes := false in
                let endpoint := handler in
                Map_add url_map (mkRule url_path endpoint strict_slashes))
             url_map (flask_paths backend)).

(** The preference order of the builder as the specification words it: under
    the default account the primary region, failing that the global marker;
    for a flat structure the single global instance. *)
Definition preferred_instance (bd : backend_dict Backend) : option Backend :=
  match bd with
  | BackendDict accounts =>
      match accounts !! DEFAULT_AWS_ACCOUNT_ID with
      | Some regions =>
          match regions !! "us-east-1" with
          | Some b => Some b
          | None => regions !! "global"
          end
      | None => None
      end
  | PlainDict backends => backends !! "global"
  end.

(** One route entry per registration, in the order of registration. *)
Definition route_entries (b : Backend) : list (Rule Handler) :=
  map (fun item => mkRule item.1 item.2 false) (flask_paths b).

(** What the builder computes for a service, apart from the log. *)
Definition built_table (service : string) : result (Map Handler) :=
  match get_backend service with
  | Some bd =>
      match preferred_instance bd with
      | Some b => Ok (mkMap (route_entries b) ("regex" :: DEFAULT_CONVERTERS))
      | None =>
          match bd with
          | BackendDict accounts =>
              match accounts !! DEFAULT_AWS_ACCOUNT_ID with
              | Some _ => Raise (KeyError "global")
              | None => Raise (KeyError DEFAULT_AWS_ACCOUNT_ID)
              end
          | PlainDict _ => Raise (KeyError "global")
          end
      end
  | None => Raise (KeyError service)
  end.

Definition logged (service : string) (w : World) : World :=
  mkWorld (moto_state w) (routing_cache w) (service :: builder_log w) (handler_log w).

(** *** [get_moto_routing_table]: the builder under [lru_cache()] *)

(** [lru_cache()] keeps at most [maxsize=128] results. *)
Definition lru_maxsize : nat := 128.

Definition cache_lookup (key : string) (c : list (string * Map Handler)) : option (Map Handler) :=
  snd <$> find (fun kv => bool_decide (kv.1 = key)) c.

Definition cache_remove (key : string) (c : list (string * Map Handler)) : list (string * Map Handler) :=
  filter (fun kv => kv.1 ≠ key) c.

(** A hit returns the stored result and makes the key the most recent one.
    A miss calls the function; an exception is not stored; a result is
    stored as the most recent one and the least recent one is dropped when
    the cache is full.  A key that was stored while the function ran is left
    as it is. *)
Definition lru_cache (f : string → M (Map Handler)) (key : string) : M (Map Handler) :=
  fun w =>
    match cache_lookup key (routing_cache w) with
    | Some v =>
        (Ok v, set_routing_cache w ((key, v) :: cache_remove key (routing_cache w)))
    | None =>
        match f key w with
        | (Ok v, w') =>
            match cache_lookup key (routing_cache w') with
            | Some _ => (Ok v, w')
            | None =>
                (Ok v, set_routing_cache w' (take lru_maxsize ((key, v) :: routing_cache w')))
            end
        | (Raise e, w') => (Raise e, w')
        end
    end.

Definition get_moto_routing_table : string → M (Map Handler) :=
  lru_cache load_moto_routing_table.

(** *** [get_dispatcher] *)

Definition get_dispatcher (service path : string) : M Handler :=
  url_map <- get_moto_routing_table service ;;
  if decide (length (_rules url_map) = 1%nat) then
    match Map_first_rule url_map with
    | Some rule => ret (endpoint rule)
    | None => raise (Exception "StopIteration")
    end
  else
    lift (MapAdapter_match url_map path).

(** *** [dispatch_to_moto] *)

(** [dispatch(request, request.url, request.headers)], noted in the log. *)
Definition call_handler (dispatch : Handler) (request : HttpRequest) : M MotoResponse :=
  fun w =>
    let '(r, s) := invoke dispatch request (url request) (headers request) (moto_state w) in
    (r, mkWorld s (routing_cache w) (builder_log w) ((dispatch, request) :: handler_log w)).

(** [except RESTError as e: raise CommonServiceException(e.error_type,
    e.message, status_code=e.code)]; any other exception passes. *)
Definition translate_RESTError (e : exn) : M MotoResponse :=
  match e with
  | RESTError error_type message code =>
      raise (CommonServiceException (PyStr error_type) (PyStr message) code false)
  | _ => raise e
  end.

Definition dispatch_to_moto (context : RequestContext) : M MotoResponse :=
  let service := service context in
  let request := request context in
  dispatch <- get_dispatcher (service_name service) (path request) ;;
  let request :=
    set_headers request (Headers_add (headers request) "x-moto-account-id" get_aws_account_id) in
  try_except (call_handler dispatch request) translate_RESTError.

(** The world after a handler call: moto's new state and one more entry in
    the log. *)
Definition called (h : Handler) (req : HttpRequest) (s : BackendState) (w : World) : World :=
  mkWorld s (routing_cache w) (builder_log w) ((h, req) :: handler_log w).

(** The request the handler receives: the request of the context with the
    account header appended. *)
Definition dispatched_request (context : RequestContext) : HttpRequest :=
  set_headers (request context)
    (Headers_add (headers (request context)) "x-moto-account-id" get_aws_account_id).

(** *** [call_moto] *)

(** [error.get(...)] needs [error] to be a dict. *)
Definition as_dict (v : pyval) : M (gmap string pyval) :=
  match v with
  | PyDict d => ret d
  | _ => raise (AttributeError "get")
  end.

Definition call_moto (context : RequestContext) (include_response_metadata : bool)
    : M ServiceResponse :=
  r <- dispatch_to_moto context ;;
  let status := r.1.1 in
  let headers := r.1.2 in
  let content := r.2 in
  response <- lift (parse_response (operation context) (mkResponse content status headers)) ;;
  if decide (status >= 301) then
    error <- getitem response "Error" ;;
    error <- as_dict error ;;
    raise (CommonServiceException (dict_get error "Code" (PyStr "UnknownError"))
                                  (dict_get error "Message" (PyStr ""))
                                  status false)
  else
    let response :=
      if negb include_response_metadata then delete "ResponseMetadata" response
      else response in
    ret response.

(** *** [call_moto_with_request] *)

Definition call_moto_with_request (context : RequestContext) (service_request : ServiceRequest)
    : M ServiceResponse :=
  local_context <- lift (create_aws_request_context
                           (service_name (service context))
                           (name (operation context))
                           service_request
                           (region context)) ;;
  let local_context :=
    set_request local_context
      (set_headers (request local_context)
         (Headers_extend (headers (request local_context)) (headers (request context)))) in
  call_moto local_context false.

(** *** [proxy_moto] *)

Definition proxy_moto (context : RequestContext) (service_request : option ServiceRequest)
    : M HttpResponse :=
  r <- dispatch_to_moto context ;;
  let status := r.1.1 in
  let headers := r.1.2 in
  let content := r.2 in
  ret (mkResponse content status headers).

(** *** [MotoFallbackDispatcher] *)

Definition ServiceRequestHandler : Type :=
  RequestContext → ServiceRequest → M handler_result.

(** A provider is seen through its dispatch table: one handler per
    operation name. *)
Abbreviation DispatchTable := (gmap string ServiceRequestHandler) (only parsing).

(** Modelled from the spec: [ForwardingFallbackDispatcher] lives in
    [localstack.aws.forwarder], which is not among the sources.  Section 4.6:
    for every operation method the provider exposes, produce a method with
    the identical signature that first invokes the original method; if that
    invocation raises the "operation not implemented" signal, instead invoke
    the pass-through dispatch; any other exception propagates unchanged. *)
Definition wrap_with_fallthrough (handler fallthrough_handler : ServiceRequestHandler)
    : ServiceRequestHandler :=
  fun context req =>
    try_except (handler context req)
      (fun e => match e with
                | NotImplementedError => fallthrough_handler context req
                | _ => raise e
                end).

Definition ForwardingFallbackDispatcher (provider : DispatchTable)
    (request_forwarder : ServiceRequestHandler) : DispatchTable :=
  (fun fn => wrap_with_fallthrough fn request_forwarder) <$> provider.

(** [proxy_moto] in the place of a [ServiceRequestHandler]. *)
Definition proxy_moto_handler : ServiceRequestHandler :=
  fun context service_request =>
    r <- proxy_moto context (Some service_request) ;;
    ret (RawResponse r).

Definition MotoFallbackDispatcher (provider : DispatchTable) : DispatchTable :=
  ForwardingFallbackDispatcher provider proxy_moto_handler.

(** *** Concurrent callers of the cached function *)

(** The steps of a caller of [lru_cache f]. *)
Definition caller_step (f : string → M (Map Handler)) (c : caller) (w : World)
    : caller * World :=
  match c with
  | Calling key =>
      match cache_lookup key (routing_cache w) with
      | Some v =>
          (Returned (Ok v),
           set_routing_cache w ((key, v) :: cache_remove key (routing_cache w)))
      | None => (Missed key, w)
      end
  | Missed key =>
      match f key w with
      | (Ok v, w') => (Computed key v, w')
      | (Raise e, w') => (Returned (Raise e), w')
      end
  | Computed key v =>
      match cache_lookup key (routing_cache w) with
      | Some _ => (Returned (Ok v), w)
      | None =>
          (Returned (Ok v),
           set_routing_cache w (take lru_maxsize ((key, v) :: routing_cache w)))
      end
  | Returned r => (Returned r, w)
  end.

(** One step of the caller in thread [i]; a schedule is the list of the
    threads that step, in order. *)
Definition sched_step (f : string → M (Map Handler)) (cfg : list caller * World) (i : nat)
    : list caller * World :=
  match cfg.1 !! i with
  | Some c => let '(c', w') := caller_step f c cfg.2 in (<[i := c']> cfg.1, w')
  | None => cfg
  end.

Definition run_schedule (f : string → M (Map Handler)) (schedule : list nat)
    (cfg : list caller * World) : list caller * World :=
  foldl (sched_step f) cfg schedule.

(** A caller that has called the wrapped function, or has returned. *)
Definition progressed (c : caller) : nat :=
  match c with
  | Computed _ _ | Returned _ => 1
  | _ => 0
  end.

Definition is_returned (c : caller) : Prop :=
  match c with
  | Returned _ => True
  | _ => False
  end.

(** What holds between the steps of callers that all ask for [service],
    whose table is [t], from a world whose builder log was [log0]: every
    caller is at one of its four points with that table, the cache holds no
    other table for the service, and the builder ran [k] times, no more often
    than callers went past their call to it and at least once when a caller
    did or the table is stored. *)
Definition callers_inv (service : string) (t : Map Handler) (log0 : list string)
    (cfg : list caller * World) : Prop :=
  Forall (fun c => c = Calling service ∨ c = Missed service ∨
                   c = Computed service t ∨ c = Returned (Ok t)) cfg.1 ∧
  (∀ v, cache_lookup service (routing_cache cfg.2) = Some v → v = t) ∧
  ∃ k : nat,
    builder_log cfg.2 = replicate k service ++ log0 ∧
    (k ≤ sum_list_with progressed cfg.1)%nat ∧
    ((1 ≤ sum_list_with progressed cfg.1)%nat ∨
       is_Some (cache_lookup service (routing_cache cfg.2)) → (1 ≤ k)%nat).

(** Calls made one after the other. *)
Fixpoint call_all (services : list string) (w : World) : World :=
  match services with
  | [] => w
  | s :: rest => call_all rest (get_moto_routing_table s w).2
  end.

End Moto.

(** ** The cache, seen from outside *)

Section MotoCache.
Context {imports : Imports}.

(** The place of a key in the cache, counted from the most recent entry,
    and the table stored there. *)
Fixpoint cache_position (key : string) (c : list (string * Map Handler))
    : option (nat * Map Handler) :=
  match c with
  | [] => None
  | (k, v) :: c' =>
      if decide (k = key) then Some (0%nat, v)
      else match cache_position key c' with
           | Some (i, v') => Some (S i, v')
           | None => None
           end
  end.

(** Every table in the cache is the table the builder makes for its key. *)
Definition cache_consistent (c : list (string * Map Handler)) : Prop :=
  ∀ key v, cache_lookup key c = Some v → built_table key = Ok v.

(** What holds between the steps of concurrent callers for [service], whose
    table is [t]: every caller is at one of its four points with that table,
    the cache holds no other table for the service, and it holds the table
    once a caller has returned. *)
Definition callers_stored_inv (service : string) (t : Map Handler)
    (cfg : list caller * World) : Prop :=
  Forall (fun c => c = Calling service ∨ c = Missed service ∨
                   c = Computed service t ∨ c = Returned (Ok t)) cfg.1 ∧
  (∀ v, cache_lookup service (routing_cache cfg.2) = Some v → v = t) ∧
  (∀ j r, cfg.1 !! j = Some (Returned r) →
          cache_lookup service (routing_cache cfg.2) = Some t).

End MotoCache.

(** ** An instance to run the module on *)

(** The instance covers the patterns made of static text and [<name>]
    variables.  werkzeug's [parse_rule] cuts such a pattern into its static
    runs and its variables. *)
Inductive part : Type :=
  | Static (text : string)
  | Dynamic (variable : string).

Definition flush_static (text : string) : list part :=
  if decide (text = "") then [] else [Static text].

Fixpoint parse_rule_from (s : string) (text : string) (variable : option string)
    : list part :=
  match s, variable with
  | EmptyString, _ => flush_static text
  | String c s', None =>
      if decide (c = "<"%char) then flush_static text ++ parse_rule_from s' "" (Some "")
      else parse_rule_from s' (text +:+ String c "") None
  | String c s', Some v =>
      if decide (c = ">"%char) then Dynamic v :: parse_rule_from s' "" None
      else parse_rule_from s' "" (Some (v +:+ String c ""))
  end.

Definition parse_rule (s : string) : list part := parse_rule_from s "" None.

(** The weights [Rule.compile] collects: [(index, -len(text))] for a static
    part, the converter's weight (100 for the default converter) for a
    variable. *)
Fixpoint part_weights (parts : list part) (index : Z) : list (Z * Z) * list Z :=
  match parts with
  | [] => ([], [])
  | Static text :: rest =>
      let w := part_weights rest (index + 1) in
      ((index, - Z.of_nat (String.length text)) :: w.1, w.2)
  | Dynamic _ :: rest =>
      let w := part_weights rest (index + 1) in
      (w.1, 100 :: w.2)
  end.

Definition demo_match_compare_key (r : Rule string) : compare_key :=
  let w := part_weights (parse_rule (rule r)) 0 in
  (bool_decide (w.2 ≠ []),
   (- Z.of_nat (length w.1), (w.1, (- Z.of_nat (length w.2), w.2)))).

Fixpoint strip_prefix (prefix s : string) : option string :=
  match prefix, s with
  | EmptyString, _ => Some s
  | String a prefix', String b s' =>
      if decide (a = b) then strip_prefix prefix' s' else None
  | String _ _, EmptyString => None
  end.

(** A variable of the default converter takes one or more characters other
    than the slash; without strict slashes a final slash is optional. *)
Fixpoint match_parts (parts : list part) (p : string) : bool :=
  match parts with
  | [] => bool_decide (p = "" ∨ p = "/")
  | Static text :: rest =>
      match strip_prefix text p with
      | Some p' => match_parts rest p'
      | None => false
      end
  | Dynamic _ :: rest =>
      (fix take_more (p : string) (taken : bool) : bool :=
         (taken && match_parts rest p) ||
         match p with
         | EmptyString => false
         | String c p' => if decide (c = "/"%char) then false else take_more p' true
         end) p false
  end.

Definition demo_rule_match (r : Rule string) (p : string) : bool :=
  match_parts (parse_rule (rule r)) p.

(** Backends: handlers go by name and a backend is its [flask_paths]. *)
Definition demo_get_backend (service : string)
    : option (backend_dict (list (string * string))) :=
  if decide (service = "sqs") then
    Some (BackendDict {[ "000000000000" :=
          {[ "us-east-1" := [("/queues", "sqs_dispatch")];
             "global" := [("/global", "sqs_global")] ]} ]})
  else if decide (service = "route53") then
    Some (BackendDict {[ "000000000000" :=
          {[ "global" := [("/<zone_id>", "get_zone"); ("/hostedzone", "list_zones")] ]} ]})
  else if decide (service = "lambda") then
    Some (BackendDict {[ "000000000000" :=
          {[ "us-east-1" :=
               [("/functions", "list_functions"); ("/<resource>", "get_resource")] ]} ]})
  else if decide (service = "legacy") then
    Some (PlainDict {[ "global" := [("/legacy", "bare")] ]})
  else if String.prefix "svc" service then
    Some (PlainDict {[ "global" := [("/" +:+ service, service)] ]})
  else None.

Definition demo_invoke (h : string) (request : HttpRequest) (full_url : string)
    (hdrs : Headers) (calls : nat) : result MotoResponse * nat :=
  if decide (h = "get_zone") then
    (Raise (RESTError "NoSuchHostedZone" "No hosted zone found" 404), S calls)
  else if decide (h = "list_zones") then (Ok (400, ∅, "error"), S calls)
  else if decide (h = "bare") then (Ok (500, ∅, "empty"), S calls)
  else (Ok (200, ∅, "ok"), S calls).

Definition demo_parse_response (op : OperationModel) (r : Response)
    : result ServiceResponse :=
  if decide (response r = "ok") then
    Ok {[ "QueueUrls" := PyList []; "ResponseMetadata" := PyDict {[ "HTTPStatusCode" := PyInt 200 ]} ]}
  else if decide (response r = "error") then
    Ok {[ "Error" := PyDict {[ "Code" := PyStr "Foo"; "Message" := PyStr "bar" ]} ]}
  else Ok ∅.

Definition demo_create_aws_request_context (service_name action : string)
    (parameters : ServiceRequest) (region : string) : result RequestContext :=
  Ok (mkRequestContext (mkServiceModel service_name) (mkOperationModel action) region
        (mkHttpRequest "POST" "/queues" "http://localhost:4566/queues"
           [("Content-Type", "application/x-amz-json-1.0"); ("X-Amz-Target", action)] "")).

Definition demo : Imports := {|
  Handler := string;
  Backend := list (string * string);
  BackendState := nat;
  flask_paths := fun b => b;
  get_backend := demo_get_backend;
  DEFAULT_AWS_ACCOUNT_ID := "000000000000";
  get_aws_account_id := "000000000000";
  invoke := demo_invoke;
  parse_response := demo_parse_response;
  create_aws_request_context := demo_create_aws_request_context;
  rule_match := demo_rule_match;
  match_compare_key := demo_match_compare_key
|}.

Definition demo_world : World_of string nat := @mkWorld string nat 0%nat [] [] [].

(** 129 services, one more than the cache holds. *)
Definition demo_services : list string :=
  (fun n : nat => "svc" +:+ pretty n) <$> seq 0 129.

(** A provider with one operation it implements and one it does not. *)
Definition demo_provider : gmap string (@ServiceRequestHandler demo) :=
  {[ "CreateQueue" :=
       (fun _ _ => @ret demo _ (ParsedResponse {[ "QueueUrl" := PyStr "http://localhost:4566/q" ]}));
     "ListQueues" := (fun _ _ => @raise demo _ NotImplementedError) ]}.

Definition demo_context (service_name path : string) : RequestContext :=
  mkRequestContext (mkServiceModel service_name) (mkOperationModel "ListQueues") "us-east-1"
    (mkHttpRequest "GET" path ("http://localhost:4566" +:+ path)
       [("Host", "localhost:4566"); ("Authorization", "AWS4-HMAC-SHA256 Credential=test")] "").

(** The tables of the services of the instance. *)
Definition sqs_table : Map string :=
  mkMap [mkRule "/queues" "sqs_dispatch" false] ("regex" :: DEFAULT_CONVERTERS).

Definition route53_table : Map string :=
  mkMap [mkRule "/<zone_id>" "get_zone" false; mkRule "/hostedzone" "list_zones" false]
        ("regex" :: DEFAULT_CONVERTERS).

Definition lambda_table : Map string :=
  mkMap [mkRule "/functions" "list_functions" false;
         mkRule "/<resource>" "get_resource" false]
        ("regex" :: DEFAULT_CONVERTERS).

Definition legacy_table : Map string :=
  mkMap [mkRule "/legacy" "bare" false] ("regex" :: DEFAULT_CONVERTERS).

(** The world after the first lookup of a service's table. *)
Definition resolved (service : string) (t : Map string) : World_of string nat :=
  @mkWorld string nat 0%nat [(service, t)] [service] [].

(** The world after one handler call for a service. *)
Definition dispatched (service : string) (t : Map string) (h : string)
    (req : HttpRequest) : World_of string nat :=
  @mkWorld string nat 1%nat [(service, t)] [service] [(h, req)].

(** ** A second instance, with backends that fail *)

(** "kinesis" has the default account but neither of the two regions,
    "glue" has no account, "empty" registers nothing, and the handlers of
    "ec2" raise an exception of their own, answer 204 and 300, and answer 503
    with an "Error" that is a string. *)
Definition faulty_get_backend (service : string)
    : option (backend_dict (list (string * string))) :=
  if decide (service = "kinesis") then
    Some (BackendDict {[ "000000000000" :=
          {[ "eu-west-1" := [("/streams", "list_streams")] ]} ]})
  else if decide (service = "glue") then Some (BackendDict ∅)
  else if decide (service = "empty") then Some (PlainDict {[ "global" := [] ]})
  else if decide (service = "ec2") then
    Some (PlainDict {[ "global" :=
          [("/crash", "crash"); ("/delete", "no_content"); ("/choices", "choices");
           ("/busy", "busy")] ]})
  else None.

Definition faulty_invoke (h : string) (request : HttpRequest) (full_url : string)
    (hdrs : Headers) (calls : nat) : result MotoResponse * nat :=
  if decide (h = "crash") then (Raise (Exception "RuntimeError"), S calls)
  else if decide (h = "no_content") then (Ok (204, ∅, ""), S calls)
  else if decide (h = "choices") then (Ok (300, ∅, "choices"), S calls)
  else (Ok (503, ∅, "busy"), S calls).

Definition faulty_parse_response (op : OperationModel) (r : Response)
    : result ServiceResponse :=
  if decide (response r = "busy") then Ok {[ "Error" := PyStr "Service Unavailable" ]}
  else if decide (response r = "choices") then
    Ok {[ "Choices" := PyList [PyStr "a"; PyStr "b"];
          "ResponseMetadata" := PyDict {[ "HTTPStatusCode" := PyInt 300 ]} ]}
  else Ok {[ "ResponseMetadata" := PyDict {[ "HTTPStatusCode" := PyInt (status r) ]} ]}.

Definition faulty : Imports := {|
  Handler := string;
  Backend := list (string * string);
  BackendState := nat;
  flask_paths := fun b => b;
  get_backend := faulty_get_backend;
  DEFAULT_AWS_ACCOUNT_ID := "000000000000";
  get_aws_account_id := "000000000000";
  invoke := faulty_invoke;
  parse_response := faulty_parse_response;
  create_aws_request_context := fun _ _ _ _ => Raise (Exception "OperationNotFoundParserError");
  rule_match := demo_rule_match;
  match_compare_key := demo_match_compare_key
|}.

Definition ec2_table : Map string :=
  mkMap [mkRule "/crash" "crash" false; mkRule "/delete" "no_content" false;
         mkRule "/choices" "choices" false; mkRule "/busy" "busy" false]
        ("regex" :: DEFAULT_CONVERTERS).

(** * localstack.testing.snapshots.report: rendering a snapshot mismatch

    A shallow embedding of [localstack/testing/snapshots/report.py].
    [render_diff] prints what [jsonpatch] finds between the actual and the
    recorded value of a snapshot: a header with the key, then one line per
    patch operation, written in a markup of bracketed tokens which the
    function finally replaces by ANSI escape codes.

    A Python string is the sequence of the bytes of its UTF-8 encoding; the
    tokens and the escape codes are ASCII, so replacing them acts alike on
    bytes and on code points. *)

(** ** Strings *)

Definition ESC : string := String "027" "".
Definition TAB : string := String "009" "".
Definition LF : string := String "010" "".

(** [s.replace(old, new)] for a non-empty [old]: the occurrences of [old] are
    found from the left and do not overlap.  [skip] counts the characters of a
    found occurrence that are still to be passed over. *)
Fixpoint replace_skip (old new : string) (skip : nat) (s : string) : string :=
  match s with
  | EmptyString => EmptyString
  | String c s' =>
      match skip with
      | S k => replace_skip old new k s'
      | O =>
          if String.prefix old s
          then new +:+ replace_skip old new (String.length old - 1) s'
          else String c (replace_skip old new O s')
      end
  end.

(** [s.replace("", new)] puts [new] before every character and at the end. *)
Fixpoint replace_empty (new s : string) : string :=
  match s with
  | EmptyString => new
  | String c s' => new +:+ String c (replace_empty new s')
  end.

(** [s.replace(old, new)] *)
Definition str_replace (s old new : string) : string :=
  match old with
  | EmptyString => replace_empty new s
  | String _ _ => replace_skip old new 0 s
  end.

(** [t in s]: [t] occurs in [s] as a substring. *)
Fixpoint occurs (t s : string) : bool :=
  String.prefix t s ||
  match s with
  | EmptyString => false
  | String _ s' => occurs t s'
  end.

(** [c not in s] *)
Fixpoint no_char (c : ascii) (s : string) : bool :=
  match s with
  | EmptyString => true
  | String d s' => negb (Ascii.eqb c d) && no_char c s'
  end.

(** [t] and [u] differ at a position that both have. *)
Fixpoint clash (t u : string) : bool :=
  match t, u with
  | String x t', String y u' => if Ascii.eqb x y then clash t' u' else true
  | _, _ => false
  end.

(** [t] differs in this way from [u] and from every suffix of [u]: no
    occurrence of [t] begins within a [u]. *)
Fixpoint apart (t u : string) : bool :=
  match u with
  | EmptyString => true
  | String _ u' => clash t u && apart t u'
  end.

(** A string cut into pieces: text without a bracket, and marks, each an
    opening bracket and what follows it up to the next piece. *)
Inductive piece : Type :=
  | Text (s : string)
  | Mark (m : string).

Definition piece_string (p : piece) : string :=
  match p with
  | Text s => s
  | Mark m => String "[" m
  end.

Fixpoint flatten (ps : list piece) : string :=
  match ps with
  | [] => ""
  | p :: ps' => piece_string p +:+ flatten ps'
  end.

(** The marks of [render_diff]: its tokens and its escape codes, without
    their bracket. *)
Definition marks : list string :=
  ["remove]"; "/remove]"; "add]"; "/add]"; "replace]"; "/replace]";
   "31m"; "32m"; "33m"; "0m"].

Definition well_formed (p : piece) : bool :=
  match p with
  | Text s => no_char "[" s
  | Mark m => existsb (String.eqb m) marks
  end.

(** The pieces with the mark [t] replaced by the pieces [new]. *)
Definition subst (t : string) (new : list piece) (p : piece) : list piece :=
  match p with
  | Mark m => if String.eqb m t then new else [p]
  | Text _ => [p]
  end.

(** The pieces after the six replacements of [render_diff]. *)
Definition colored (ps : list piece) : list piece :=
  flat_map (subst "/replace]" [Text ESC; Mark "0m"])
    (flat_map (subst "replace]" [Text ESC; Mark "33m"])
       (flat_map (subst "/add]" [Text ESC; Mark "0m"])
          (flat_map (subst "add]" [Text ESC; Mark "32m"])
             (flat_map (subst "/remove]" [Text ESC; Mark "0m"])
                (flat_map (subst "remove]" [Text ESC; Mark "31m"]) ps))))).

(** The lines of a text, each with its line feed. *)
Definition unlines (f : string → string) (lines : list string) : string :=
  foldr (fun line rest => f line +:+ LF +:+ rest) "" lines.

(** ** Exceptions and results *)

Inductive report_exn : Type :=
  | ValueError (msg : string)
  | JsonPointerException (msg : string)
  | Builtin (e : exn).

Inductive outcome (A : Type) : Type :=
  | Returns (v : A)
  | Raises (e : report_exn).
Arguments Returns {A} v.
Arguments Raises {A} e.

Definition outcome_bind {A B} (m : outcome A) (k : A → outcome B) : outcome B :=
  match m with
  | Returns v => k v
  | Raises e => Raises e
  end.

(** ** What the module imports *)

(** [SnapshotMatchResult] of [localstack.testing.snapshots], as far as
    [render_diff] reads it: the attributes [a], [b] and [key]. *)
Module snapshots.
Record SnapshotMatchResult : Type := mkSnapshotMatchResult {
  a : pyval;
  b : pyval;
  key : string
}.
End snapshots.

(** [jsonpatch], [jsonpointer] and the formatting of values.
    - [make_patch src dst] is [jsonpatch.make_patch(src, dst).patch], a list
      of operations, each a dict;
    - [resolve_pointer doc pointer] is [jsonpointer.resolve_pointer];
    - [repr v] is what an f-string prints for a value that is no string. *)
Class Json : Type := {
  make_patch : pyval → pyval → list (gmap string pyval);
  resolve_pointer : pyval → pyval → outcome pyval;
  repr : pyval → string
}.

(** ** The module *)

Definition _esctable : gmap string Z :=
  list_to_map
    [ (* text colors *)
      ("black", 30); ("red", 31); ("green", 32); ("yellow", 33);
      ("blue", 34); ("purple", 35); ("cyan", 36); ("white", 37);
      (* background colors *)
      ("Black", 40); ("Red", 41); ("Green", 42); ("Yellow", 43);
      ("Blue", 44); ("Purple", 45); ("Cyan", 46); ("White", 47);
      (* special *)
      ("bold", 1); ("light", 2); ("blink", 5); ("invert", 7);
      ("strikethrough", 9); ("underlined", 4) ].

(** The dict [replacement_map] of [render_diff], in the order of its items. *)
Definition replacement_map : list (string * list Z) :=
  [ ("remove", [_esctable !!! "red"]);
    ("add", [_esctable !!! "green"]);
    ("replace", [_esctable !!! "yellow"]) ].

(** The last loop of [render_diff]: each token of the markup and its closing
    token are replaced by escape codes. *)
Definition replace_tokens (printstr : string) : string :=
  foldl (fun printstr '(token, replacements) =>
           let printstr :=
             str_replace printstr ("[" +:+ token +:+ "]")
               (String.concat ""
                  ((fun code : Z => ESC +:+ "[" +:+ pretty code +:+ "m") <$> replacements)) in
           str_replace printstr ("[/" +:+ token +:+ "]") (ESC +:+ "[0m"))
        printstr replacement_map.

Section Report.
Context {json : Json}.

Notation "x <- m ;; k" := (outcome_bind m (fun x => k))
  (at level 100, m at next level, right associativity).

(** What an f-string prints for [v]: a string as it is. *)
Definition format (v : pyval) : string :=
  match v with
  | PyStr s => s
  | _ => repr v
  end.

(** [p[key]] on an operation of the patch. *)
Definition subscript (p : gmap string pyval) (key : string) : outcome pyval :=
  match p !! key with
  | Some v => Returns v
  | None => Raises (Builtin (KeyError key))
  end.

(** [v == s] for a string literal [s]. *)
Definition eq_str (v : pyval) (s : string) : bool :=
  match v with
  | PyStr s' => String.eqb s' s
  | _ => false
  end.

(** The body of the loop over the patch: [appendstr] for the operation [p]. *)
Definition render_operation (verified actual : pyval) (p : gmap string pyval)
    : outcome string :=
  let appendstr := TAB in
  op <- subscript p "op" ;;
  if eq_str op "remove" then
    path <- subscript p "path" ;;
    Returns (appendstr +:+ "[remove](-)[/remove] " +:+ format path)
  else if eq_str op "add" then
    path <- subscript p "path" ;;
    v <- resolve_pointer verified path ;;
    Returns (appendstr +:+ "[add](+)[/add] " +:+ format path +:+ " (" +:+ format v +:+ ")")
  else if eq_str op "replace" then
    path <- subscript p "path" ;;
    old <- resolve_pointer actual path ;;
    new <- resolve_pointer verified path ;;
    Returns (appendstr +:+ "[replace](~)[/replace] " +:+ format path +:+ " ([remove]"
             +:+ format old +:+ "[/remove] → [add]" +:+ format new +:+ "[/add])")
  else Raises (ValueError ("Unknown operation: " +:+ format (PyDict p))).

(** The loop over the patch, from the [printstr] built so far. *)
Fixpoint render_operations (verified actual : pyval) (printstr : string)
    (patch : list (gmap string pyval)) : outcome string :=
  match patch with
  | [] => Returns printstr
  | p :: patch' =>
      appendstr <- render_operation verified actual p ;;
      render_operations verified actual (printstr +:+ appendstr +:+ LF) patch'
  end.

Definition render_diff (result : snapshots.SnapshotMatchResult) : outcome string :=
  let verified := snapshots.a result in
  let actual := snapshots.b result in
  let printstr := "" in
  let printstr := printstr +:+ ">> " +:+ snapshots.key result +:+ LF in
  let patch := make_patch actual verified in
  printstr <- render_operations verified actual printstr patch ;;
  Returns (replace_tokens printstr).

End Report.

(** ** jsonpatch and jsonpointer on flat dicts *)

(** Equality of two values that are no containers. *)
Definition scalar_eqb (v w : pyval) : bool :=
  match v, w with
  | PyNone, PyNone => true
  | PyBool x, PyBool y => Bool.eqb x y
  | PyInt x, PyInt y => Z.eqb x y
  | PyStr x, PyStr y => String.eqb x y
  | _, _ => false
  end.

Definition patch_operation (op path : string) : gmap string pyval :=
  {[ "op" := PyStr op; "path" := PyStr path ]}.

(** The patch from [src] to [dst] where both are dicts of scalars: the keys
    to remove, the keys to add and the keys whose value changes. *)
Definition flat_make_patch (src dst : pyval) : list (gmap string pyval) :=
  match src, dst with
  | PyDict s, PyDict d =>
      ((fun kv => patch_operation "remove" ("/" +:+ kv.1)) <$>
         List.filter (fun kv => negb (bool_decide (is_Some (d !! kv.1)))) (map_to_list s))
      ++ ((fun kv => patch_operation "add" ("/" +:+ kv.1)) <$>
            List.filter (fun kv => negb (bool_decide (is_Some (s !! kv.1)))) (map_to_list d))
      ++ ((fun kv => patch_operation "replace" ("/" +:+ kv.1)) <$>
            List.filter (fun kv => match s !! kv.1 with
                                   | Some v => negb (scalar_eqb v kv.2)
                                   | None => false
                                   end) (map_to_list d))
  | _, _ => []
  end.

(** A pointer ["/k"] into a dict. *)
Definition flat_resolve_pointer (doc pointer : pyval) : outcome pyval :=
  match doc, pointer with
  | PyDict d, PyStr (String "/" k) =>
      match d !! k with
      | Some v => Returns v
      | None => Raises (JsonPointerException ("member '" +:+ k +:+ "' not found"))
      end
  | _, _ => Raises (JsonPointerException "Location must start with /")
  end.

Definition flat_repr (v : pyval) : string :=
  match v with
  | PyNone => "None"
  | PyBool true => "True"
  | PyBool false => "False"
  | PyInt z => pretty z
  | _ => "..."
  end.

Definition flat : Json := {|
  make_patch := flat_make_patch;
  resolve_pointer := flat_resolve_pointer;
  repr := flat_repr
|}.

(** A diff that renames a key, which RFC 6902 writes as one [move]. *)
Definition renaming : Json := {|
  make_patch := fun _ _ =>
    [ {[ "op" := PyStr "move"; "from" := PyStr "/a"; "path" := PyStr "/b" ]} ];
  resolve_pointer := flat_resolve_pointer;
  repr := fun _ => "{'op': 'move', 'from': '/a', 'path': '/b'}"
|}.

(** A snapshot recorded as [{"x": 1, "y": 2}] that now reads
    [{"y": 3, "z": 4}], under a key that holds a token of the markup. *)
Definition drifted : snapshots.SnapshotMatchResult :=
  snapshots.mkSnapshotMatchResult
    (PyDict {[ "x" := PyInt 1; "y" := PyInt 2 ]})
    (PyDict {[ "y" := PyInt 3; "z" := PyInt 4 ]})
    "sqs.[add]".

(** A snapshot with one difference: the recorded value [a], the actual [b]. *)
Definition differing (a b : gmap string pyval) : snapshots.SnapshotMatchResult :=
  snapshots.mkSnapshotMatchResult (PyDict a) (PyDict b) "sqs.queue".

(** What [render_diff] prints for [drifted]. *)
Definition drifted_output : string :=
  ">> sqs." +:+ ESC +:+ "[32m" +:+ LF
  +:+ TAB +:+ ESC +:+ "[31m(-)" +:+ ESC +:+ "[0m /z" +:+ LF
  +:+ TAB +:+ ESC +:+ "[32m(+)" +:+ ESC +:+ "[0m /x (1)" +:+ LF
  +:+ TAB +:+ ESC +:+ "[33m(~)" +:+ ESC +:+ "[0m /y (" +:+ ESC +:+ "[31m3"
  +:+ ESC +:+ "[0m → " +:+ ESC +:+ "[32m2" +:+ ESC +:+ "[0m)" +:+ LF.

(** ** Properties *)

Section SortingTheory.
Context {A : Type} (key : A → compare_key).

Lemma key_le_refl (a : compare_key) : key_le a a.
Proof. unfold key_le. apply irreflexivity. apply _. Qed.

Lemma key_le_trans (a b c : compare_key) : key_le a b → key_le b c → key_le a c.
Proof.
  unfold key_le. intros Hab Hbc Hca.
  destruct (trichotomy lexico b c) as [Hlt|[->|Hgt]]; [|done|done].
  apply Hab. by etrans.
Qed.

Lemma not_key_le (a b : compare_key) : ¬ key_le a b → key_lt b a.
Proof.
  unfold key_le, key_lt. intros Hn.
  destruct (trichotomy lexico b a) as [Hlt|[->|Hgt]]; [done| |].
  - destruct Hn. apply irreflexivity. apply _.
  - destruct Hn. intros Hba. by apply (irreflexivity lexico a); etrans.
Qed.

Lemma key_lt_le (a b : compare_key) : key_lt a b → key_le a b.
Proof.
  unfold key_lt, key_le. intros Hab Hba. by apply (irreflexivity lexico a); etrans.
Qed.

Definition le_by (x y : A) : Prop := key_le (key x) (key y).

Lemma sort_insert_elem_of (x y : A) (l : list A) :
  y ∈ sort_insert key x l ↔ y = x ∨ y ∈ l.
Proof.
  induction l as [|z l IH]; simpl.
  - rewrite list_elem_of_singleton, elem_of_nil. tauto.
  - case_decide.
    + rewrite elem_of_cons. tauto.
    + rewrite elem_of_cons, IH, elem_of_cons. tauto.
Qed.

Lemma sort_insert_sorted (x : A) (l : list A) :
  StronglySorted le_by l → StronglySorted le_by (sort_insert key x l).
Proof.
  induction 1 as [|y l Hl IH Hy]; simpl.
  - repeat constructor.
  - case_decide as Hxy.
    + constructor; [by constructor|]. constructor; [done|].
      eapply Forall_impl; [exact Hy|]. intros z Hz. by eapply key_le_trans.
    + constructor; [done|]. apply Forall_forall. intros z Hz.
      apply sort_insert_elem_of in Hz as [->|Hz].
      * apply key_lt_le. by apply not_key_le.
      * by eapply Forall_forall in Hy.
Qed.

Lemma stable_sort_sorted (l : list A) : StronglySorted le_by (stable_sort key l).
Proof.
  induction l; simpl; [constructor|]. by apply sort_insert_sorted.
Qed.

(** Sorting a sorted list changes nothing: it does not matter that
    [Map.update] sorts the list of the map in place. *)
Lemma stable_sort_sorted_id (l : list A) :
  StronglySorted le_by l → stable_sort key l = l.
Proof.
  induction 1 as [|x l Hl IH Hx]; simpl; [done|].
  rewrite IH. destruct l as [|y l]; simpl; [done|].
  rewrite decide_True; [done|]. by apply Forall_cons in Hx as [Hxy _].
Qed.

Lemma stable_sort_idemp (l : list A) :
  stable_sort key (stable_sort key l) = stable_sort key l.
Proof. apply stable_sort_sorted_id, stable_sort_sorted. Qed.

Lemma stable_sort_elem_of (x : A) (l : list A) : x ∈ stable_sort key l ↔ x ∈ l.
Proof.
  induction l as [|y l IH]; simpl; [done|].
  rewrite sort_insert_elem_of, IH, elem_of_cons. tauto.
Qed.

Lemma find_elem_of (P : A → bool) (l : list A) (x : A) :
  find P l = Some x → x ∈ l ∧ P x = true.
Proof.
  intros H. apply find_some in H as [Hin HP]. split; [|done].
  by apply list_elem_of_In.
Qed.

Lemma find_sort_insert (P : A → bool) (x : A) (l : list A) :
  StronglySorted le_by l →
  find P (sort_insert key x l)
  = if P x then
      match find P l with
      | Some y => if decide (key_lt (key y) (key x)) then Some y else Some x
      | None => Some x
      end
    else find P l.
Proof.
  induction 1 as [|y l Hl IH Hy]; simpl.
  - by destruct (P x).
  - case_decide as Hxy; simpl.
    + destruct (P x) eqn:HPx; [|done].
      destruct (P y) eqn:HPy.
      * by rewrite decide_False.
      * destruct (find P l) as [z|] eqn:Hz; [|done].
        apply find_elem_of in Hz as [Hz _].
        rewrite decide_False; [done|].
        eapply Forall_forall in Hy; [|exact Hz].
        by apply (key_le_trans _ _ _ Hxy Hy).
    + apply not_key_le in Hxy. destruct (P y) eqn:HPy.
      * destruct (P x); [|done]. by rewrite decide_True.
      * exact IH.
Qed.

Lemma find_stable_sort (P : A → bool) (l : list A) :
  find P (stable_sort key l) = first_by_weight key P l.
Proof.
  induction l as [|x l IH]; simpl; [done|].
  rewrite find_sort_insert by apply stable_sort_sorted. by rewrite IH.
Qed.

Lemma first_by_weight_elem_of (P : A → bool) (l : list A) (x : A) :
  first_by_weight key P l = Some x → x ∈ l ∧ P x = true.
Proof.
  rewrite <- find_stable_sort. intros H. apply find_elem_of in H as [Hin HP].
  split; [by apply stable_sort_elem_of|done].
Qed.

Lemma first_by_weight_none_before (P : A → bool) (l1 l2 : list A) :
  (∀ y, y ∈ l1 → P y = false) →
  first_by_weight key P (l1 ++ l2) = first_by_weight key P l2.
Proof.
  induction l1 as [|y l1 IH]; intros Hl1; simpl; [done|].
  rewrite (Hl1 y) by apply list_elem_of_here.
  apply IH. intros z Hz. apply Hl1. by apply list_elem_of_further.
Qed.

(** The scan stops at an element that nothing matching comes before in the
    list and nothing matching after it outweighs. *)
Lemma find_stable_sort_at (P : A → bool) (l1 l2 : list A) (x : A) :
  P x = true →
  (∀ y, y ∈ l1 → P y = false) →
  (∀ y, y ∈ l2 → P y = true → ¬ key_lt (key y) (key x)) →
  find P (stable_sort key (l1 ++ x :: l2)) = Some x.
Proof.
  intros HPx Hl1 Hl2. rewrite find_stable_sort, first_by_weight_none_before by done.
  simpl. rewrite HPx. destruct (first_by_weight key P l2) as [y|] eqn:Hy; [|done].
  apply first_by_weight_elem_of in Hy as [Hin HPy].
  rewrite decide_False; [done|]. by apply Hl2.
Qed.

(** With equal keys throughout, sorting leaves the order of registration. *)
Lemma stable_sort_equal_keys (l : list A) :
  (∀ x y, x ∈ l → y ∈ l → key x = key y) → stable_sort key l = l.
Proof.
  induction l as [|x l IH]; intros Heq; simpl; [done|].
  rewrite IH by (intros; apply Heq; by apply list_elem_of_further).
  destruct l as [|y l]; simpl; [done|].
  rewrite decide_True; [done|].
  rewrite (Heq x y); [apply key_le_refl|apply list_elem_of_here|].
  apply list_elem_of_further, list_elem_of_here.
Qed.

End SortingTheory.

Section MotoTheory.
Context {imports : Imports}.

(** *** The routing table builder *)

Lemma foldl_Map_add (items : list (string * Handler)) (m : Map Handler) :
  foldl (fun url_map item => Map_add url_map (mkRule item.1 item.2 false)) m items
  = mkMap (_rules m ++ map (fun item => mkRule item.1 item.2 false) items) (converters m).
Proof.
  revert m. induction items as [|item items IH]; intros m; simpl.
  - rewrite app_nil_r. by destruct m.
  - rewrite IH. simpl. by rewrite <- app_assoc.
Qed.

Lemma load_moto_routing_table_eq (service : string) (w : World) :
  load_moto_routing_table service w = (built_table service, logged service w).
Proof.
  unfold load_moto_routing_table, built_table, bind, log_builder, logged.
  destruct (get_backend service) as [bd|]; [|done].
  destruct bd as [accounts|backends]; simpl.
  - unfold getitem at 1. destruct (accounts !! DEFAULT_AWS_ACCOUNT_ID) as [regions|] eqn:Ha;
      unfold ret, raise; [|done].
    destruct (decide (is_Some (regions !! "us-east-1"))) as [[b Hb]|Hn].
    + unfold bind, getitem. rewrite Ha. unfold ret. rewrite Hb.
      rewrite foldl_Map_add. done.
    + unfold bind, getitem. rewrite Ha. unfold ret.
      destruct (regions !! "us-east-1") as [b|] eqn:Hb; [by destruct Hn; eauto|].
      destruct (regions !! "global") as [b|]; [|done].
      rewrite foldl_Map_add. done.
  - unfold getitem. destruct (backends !! "global") as [b|]; unfold ret, raise; [|done].
    rewrite foldl_Map_add. done.
Qed.

(** C9: the builder takes the backend instance the preference order names
    (under the default account the region "us-east-1", otherwise "global";
    for a flat structure the instance under "global"), and the table has one
    route entry per registration of that instance, in their order. *)
Theorem load_moto_routing_table_selects (service : string)
    (bd : backend_dict Backend) (b : Backend) (w : World) :
  get_backend service = Some bd →
  preferred_instance bd = Some b →
  ∃ table,
    load_moto_routing_table service w = (Ok table, logged service w) ∧
    _rules table = map (fun item => mkRule item.1 item.2 false) (flask_paths b) ∧
    length (_rules table) = length (flask_paths b) ∧
    ∀ url_path handler,
      (url_path, handler) ∈ flask_paths b ↔ mkRule url_path handler false ∈ _rules table.
Proof.
  intros Hbd Hb. rewrite load_moto_routing_table_eq. unfold built_table.
  rewrite Hbd, Hb. eexists. split; [done|]. simpl. unfold route_entries.
  split; [done|]. split; [by rewrite length_map|].
  intros url_path handler. rewrite list_elem_of_fmap. split.
  - intros Hin. by exists (url_path, handler).
  - intros [[u h] [Heq Hin]]. simpl in Heq. by inversion Heq; subst.
Qed.

(** *** The resolver *)

Lemma get_dispatcher_eq (service path : string) (w w' : World) (t : Map Handler) :
  get_moto_routing_table service w = (Ok t, w') →
  get_dispatcher service path w
  = (if decide (length (_rules t) = 1%nat) then
       match Map_first_rule t with
       | Some rule => ret (endpoint rule)
       | None => raise (Exception "StopIteration")
       end
     else lift (MapAdapter_match t path)) w'.
Proof. intros Ht. unfold get_dispatcher, bind. by rewrite Ht. Qed.

Lemma get_dispatcher_raises (service path : string) (w w' : World) (e : exn) :
  get_moto_routing_table service w = (Raise e, w') →
  get_dispatcher service path w = (Raise e, w').
Proof. intros Ht. unfold get_dispatcher, bind. by rewrite Ht. Qed.

(** C5: when the routing table of the service has exactly one route entry,
    the resolver returns that entry's handler for every request path; the
    answer does not depend on whether the pattern matches the path. *)
Theorem get_dispatcher_single_rule (service path : string) (w w' : World)
    (t : Map Handler) (r : Rule Handler) :
  get_moto_routing_table service w = (Ok t, w') →
  _rules t = [r] →
  get_dispatcher service path w = (Ok (endpoint r), w').
Proof.
  intros Ht Hr. rewrite (get_dispatcher_eq _ _ _ _ _ Ht).
  unfold Map_first_rule, Map_update. by rewrite Hr.
Qed.

(** C4, amended: with two or more route entries, when the path matches
    pattern [i], matches no pattern registered before it, and no pattern
    registered after it that matches as well has a smaller
    [match_compare_key], the resolver returns the handler registered with
    pattern [i]. *)
Theorem get_dispatcher_first_match (service path : string) (w w' : World)
    (t : Map Handler) (i : nat) (r : Rule Handler) :
  get_moto_routing_table service w = (Ok t, w') →
  (2 ≤ length (_rules t))%nat →
  _rules t !! i = Some r →
  rule_match r path = true →
  (∀ j r', (j < i)%nat → _rules t !! j = Some r' → rule_match r' path = false) →
  (∀ j r', (i < j)%nat → _rules t !! j = Some r' → rule_match r' path = true →
           ¬ key_lt (match_compare_key r') (match_compare_key r)) →
  get_dispatcher service path w = (Ok (endpoint r), w').
Proof.
  intros Ht Hlen Hi Hr Hbefore Hafter.
  rewrite (get_dispatcher_eq _ _ _ _ _ Ht).
  rewrite decide_False by lia.
  unfold lift, MapAdapter_match, Map_update.
  rewrite <- (take_drop_middle _ _ _ Hi).
  rewrite (find_stable_sort_at match_compare_key (fun r => rule_match r path)); [done|done| |].
  - intros y Hy. apply list_elem_of_lookup in Hy as [j Hj].
    apply lookup_take_Some in Hj as [Hj Hlt]. by eapply Hbefore.
  - intros y Hy HPy. apply list_elem_of_lookup in Hy as [j Hj].
    rewrite lookup_drop in Hj. eapply (Hafter (S i + j)%nat); [lia|done|done].
Qed.

(** *** The executor *)

Lemma built_table_raises (service : string) (e : exn) :
  built_table service = Raise e → ∃ key, e = KeyError key.
Proof.
  unfold built_table. intros H.
  destruct (get_backend service) as [bd|]; [|inversion H; eauto].
  destruct (preferred_instance bd); [done|].
  destruct bd as [accounts|backends]; [|inversion H; eauto].
  destruct (accounts !! DEFAULT_AWS_ACCOUNT_ID); inversion H; eauto.
Qed.

Lemma get_moto_routing_table_raises (service : string) (w w' : World) (e : exn) :
  get_moto_routing_table service w = (Raise e, w') → ∃ key, e = KeyError key.
Proof.
  unfold get_moto_routing_table, lru_cache. rewrite load_moto_routing_table_eq.
  destruct (cache_lookup service (routing_cache w)); [done|].
  destruct (built_table service) eqn:Hb.
  - simpl. by destruct (cache_lookup service (routing_cache w)).
  - intros H. inversion H; subst. by eapply built_table_raises.
Qed.

(** The cached lookup touches neither moto's state nor the handler log. *)
Lemma get_moto_routing_table_frame (service : string) (w : World) :
  moto_state (get_moto_routing_table service w).2 = moto_state w ∧
  handler_log (get_moto_routing_table service w).2 = handler_log w.
Proof.
  unfold get_moto_routing_table, lru_cache. rewrite load_moto_routing_table_eq.
  destruct (cache_lookup service (routing_cache w)); [done|].
  destruct (built_table service); [|done].
  simpl. by destruct (cache_lookup service (routing_cache w)).
Qed.

Lemma get_dispatcher_world (service path : string) (w : World) :
  (get_dispatcher service path w).2 = (get_moto_routing_table service w).2.
Proof.
  unfold get_dispatcher, bind.
  destruct (get_moto_routing_table service w) as [[t|e] w']; [|done].
  case_decide; [|done]. by destruct (Map_first_rule t).
Qed.

Lemma get_dispatcher_not_RESTError (service path : string) (w w' : World)
    (error_type message : string) (code : Z) :
  get_dispatcher service path w ≠ (Raise (RESTError error_type message code), w').
Proof.
  unfold get_dispatcher, bind.
  destruct (get_moto_routing_table service w) as [[t|e] w1] eqn:Ht.
  - case_decide.
    + by destruct (Map_first_rule t).
    + unfold lift, MapAdapter_match. by destruct (find _ _).
  - apply get_moto_routing_table_raises in Ht as [key ->]. done.
Qed.

Lemma dispatch_to_moto_eq (context : RequestContext) (w w1 : World) (h : Handler) :
  get_dispatcher (service_name (service context)) (path (request context)) w = (Ok h, w1) →
  dispatch_to_moto context w
  = try_except (call_handler h (dispatched_request context)) translate_RESTError w1.
Proof. intros Hd. unfold dispatch_to_moto, bind. by rewrite Hd. Qed.

Lemma dispatch_to_moto_resolver_raises (context : RequestContext) (w w1 : World) (e : exn) :
  get_dispatcher (service_name (service context)) (path (request context)) w = (Raise e, w1) →
  dispatch_to_moto context w = (Raise e, w1).
Proof. intros Hd. unfold dispatch_to_moto, bind. by rewrite Hd. Qed.

(** C3, amended: when the handler the executor invokes raises moto's
    [RESTError], the executor raises a [CommonServiceException] with the same
    error type, message and status code; no dispatch ends in a [RESTError];
    and every dispatch ends in one of four ways: in the exception the
    resolver raised, unchanged; in the raw result the handler returned; in
    the [CommonServiceException] for the [RESTError] the handler raised; or
    in the exception the handler raised that is no [RESTError], unchanged. *)
Theorem dispatch_to_moto_translates (context : RequestContext) (w w1 : World)
    (h : Handler) (error_type message : string) (code : Z) (s : BackendState) :
  get_dispatcher (service_name (service context)) (path (request context)) w = (Ok h, w1) →
  invoke h (dispatched_request context) (url (dispatched_request context))
         (headers (dispatched_request context)) (moto_state w1)
    = (Raise (RESTError error_type message code), s) →
  dispatch_to_moto context w
    = (Raise (CommonServiceException (PyStr error_type) (PyStr message) code false),
       called h (dispatched_request context) s w1)
  ∧ (∀ context' w' error_type' message' code',
       (dispatch_to_moto context' w').1 ≠ Raise (RESTError error_type' message' code'))
  ∧ (∀ context' w',
       match get_dispatcher (service_name (service context')) (path (request context')) w' with
       | (Raise e, _) => (dispatch_to_moto context' w').1 = Raise e
       | (Ok h', w1') =>
           match (invoke h' (dispatched_request context') (url (dispatched_request context'))
                         (headers (dispatched_request context')) (moto_state w1')).1 with
           | Ok r => (dispatch_to_moto context' w').1 = Ok r
           | Raise (RESTError t m c) =>
               (dispatch_to_moto context' w').1
               = Raise (CommonServiceException (PyStr t) (PyStr m) c false)
           | Raise e => (dispatch_to_moto context' w').1 = Raise e
           end
       end).
Proof.
  intros Hd Hinv. split; [|split].
  - rewrite (dispatch_to_moto_eq _ _ _ _ Hd).
    unfold try_except, call_handler. by rewrite Hinv.
  - intros context' w' t m c Hout.
    destruct (get_dispatcher (service_name (service context')) (path (request context')) w')
      as [[h'|e] w1'] eqn:Hd'.
    + rewrite (dispatch_to_moto_eq _ _ _ _ Hd') in Hout.
      unfold try_except, call_handler in Hout.
      destruct (invoke h' _ _ _ _) as [[r|e] s']; [done|].
      by destruct e.
    + rewrite (dispatch_to_moto_resolver_raises _ _ _ _ Hd') in Hout.
      simpl in Hout. inversion Hout; subst.
      by eapply get_dispatcher_not_RESTError.
  - intros context' w'.
    destruct (get_dispatcher (service_name (service context')) (path (request context')) w')
      as [[h'|e] w1'] eqn:Hd'.
    + rewrite (dispatch_to_moto_eq _ _ _ _ Hd').
      unfold try_except, call_handler.
      destruct (invoke h' _ _ _ _) as [[r|e] s']; [reflexivity|].
      by destruct e.
    + by rewrite (dispatch_to_moto_resolver_raises _ _ _ _ Hd').
Qed.

(** *** The translator *)

Lemma call_moto_eq (context : RequestContext) (include_response_metadata : bool)
    (w w1 : World) (status : Z) (hdrs : gmap string string) (content : string) :
  dispatch_to_moto context w = (Ok (status, hdrs, content), w1) →
  call_moto context include_response_metadata w
  = match parse_response (operation context) (mkResponse content status hdrs) with
    | Ok response =>
        if decide (status >= 301) then
          match response !! "Error" with
          | Some (PyDict error) =>
              (Raise (CommonServiceException
                        (dict_get error "Code" (PyStr "UnknownError"))
                        (dict_get error "Message" (PyStr "")) status false), w1)
          | Some _ => (Raise (AttributeError "get"), w1)
          | None => (Raise (KeyError "Error"), w1)
          end
        else
          (Ok (if negb include_response_metadata
               then delete "ResponseMetadata" response else response), w1)
    | Raise e => (Raise e, w1)
    end.
Proof.
  intros Hd. unfold call_moto, bind. rewrite Hd. simpl. unfold lift.
  destruct (parse_response _ _) as [response|e]; [|done].
  case_decide; [|done].
  unfold getitem. destruct (response !! "Error") as [v|]; [|done].
  by destruct v.
Qed.

(** C2, amended: when the raw dispatch result has a status of 301 or more
    and the parsed body holds a mapping under "Error", [call_moto] raises a
    [CommonServiceException] whose code is the mapping's "Code" or
    "UnknownError" when it has none, whose message is its "Message" or the
    empty string when it has none, and whose status code is the status of the
    raw result; it returns no response. *)
Theorem call_moto_error_status (context : RequestContext) (include_response_metadata : bool)
    (w w1 : World) (status : Z) (hdrs : gmap string string) (content : string)
    (body error : gmap string pyval) :
  dispatch_to_moto context w = (Ok (status, hdrs, content), w1) →
  status >= 301 →
  parse_response (operation context) (mkResponse content status hdrs) = Ok body →
  body !! "Error" = Some (PyDict error) →
  call_moto context include_response_metadata w
  = (Raise (CommonServiceException
              (default (PyStr "UnknownError") (error !! "Code"))
              (default (PyStr "") (error !! "Message"))
              status false), w1).
Proof.
  intros Hd Hs Hp He. rewrite (call_moto_eq _ _ _ _ _ _ _ Hd), Hp.
  rewrite decide_True by done. by rewrite He.
Qed.

(** C10: when the raw dispatch result has a status of 301 or more and the
    parsed body has no "Error" key, [call_moto] raises the [KeyError] of the
    lookup and no [CommonServiceException]. *)
Theorem call_moto_error_key_missing (context : RequestContext)
    (include_response_metadata : bool) (w w1 : World) (status : Z)
    (hdrs : gmap string string) (content : string) (body : gmap string pyval) :
  dispatch_to_moto context w = (Ok (status, hdrs, content), w1) →
  status >= 301 →
  parse_response (operation context) (mkResponse content status hdrs) = Ok body →
  body !! "Error" = None →
  call_moto context include_response_metadata w = (Raise (KeyError "Error"), w1) ∧
  ∀ code message status_code sender_fault,
    (call_moto context include_response_metadata w).1
    ≠ Raise (CommonServiceException code message status_code sender_fault).
Proof.
  intros Hd Hs Hp He. rewrite (call_moto_eq _ _ _ _ _ _ _ Hd), Hp.
  rewrite decide_True by done. by rewrite He.
Qed.

(** C7: when the raw dispatch result has status 200 and the body parses,
    [call_moto] returns the parsed body without its "ResponseMetadata" when
    [include_response_metadata] is false and the parsed body as it is when
    the flag is true; every other key keeps its value. *)
Theorem call_moto_success (context : RequestContext) (w w1 : World)
    (hdrs : gmap string string) (content : string) (body : gmap string pyval) :
  dispatch_to_moto context w = (Ok (200, hdrs, content), w1) →
  parse_response (operation context) (mkResponse content 200 hdrs) = Ok body →
  call_moto context false w = (Ok (delete "ResponseMetadata" body), w1) ∧
  call_moto context true w = (Ok body, w1) ∧
  delete "ResponseMetadata" body !! "ResponseMetadata" = None ∧
  ∀ key, key ≠ "ResponseMetadata" → delete "ResponseMetadata" body !! key = body !! key.
Proof.
  intros Hd Hp. rewrite !(call_moto_eq _ _ _ _ _ _ _ Hd), Hp.
  rewrite decide_False by lia. simpl.
  split; [done|]. split; [done|]. split.
  - apply lookup_delete_eq.
  - intros key Hkey. by apply lookup_delete_ne.
Qed.

(** *** Calling with a modified request *)

Lemma Headers_extend_app (h other : Headers) : Headers_extend h other = h ++ other.
Proof.
  unfold Headers_extend. revert h.
  induction other as [|[k v] other IH]; intros h; simpl.
  - by rewrite app_nil_r.
  - rewrite IH. unfold Headers_add. by rewrite <- app_assoc.
Qed.

Lemma dispatch_to_moto_log (context : RequestContext) (w : World) :
  handler_log (dispatch_to_moto context w).2 = handler_log w ∨
  ∃ h, handler_log (dispatch_to_moto context w).2
       = (h, dispatched_request context) :: handler_log w.
Proof.
  pose proof (get_dispatcher_world (service_name (service context))
                (path (request context)) w) as Hw.
  pose proof (get_moto_routing_table_frame (service_name (service context)) w) as [_ Hlog].
  destruct (get_dispatcher (service_name (service context)) (path (request context)) w)
    as [[h|e] w1] eqn:Hd; simpl in Hw; subst w1.
  - right. exists h. rewrite (dispatch_to_moto_eq _ _ _ _ Hd).
    unfold try_except, call_handler.
    destruct (invoke h _ _ _ _) as [[r|e] s]; simpl; [by rewrite Hlog|].
    destruct e; simpl; by rewrite Hlog.
  - left. by rewrite (dispatch_to_moto_resolver_raises _ _ _ _ Hd).
Qed.

Lemma call_moto_world (context : RequestContext) (include_response_metadata : bool)
    (w : World) :
  (call_moto context include_response_metadata w).2 = (dispatch_to_moto context w).2.
Proof.
  destruct (dispatch_to_moto context w) as [[[[status hdrs] content]|e] w1] eqn:Hd.
  - rewrite (call_moto_eq _ _ _ _ _ _ _ Hd). simpl.
    destruct (parse_response _ _) as [response|e]; [|done].
    case_decide; [|done].
    destruct (response !! "Error") as [v|]; [|done]. by destruct v.
  - unfold call_moto, bind. by rewrite Hd.
Qed.

(** C8: [call_moto_with_request] builds a new request context from the new
    parameters, appends the headers of the original request to the headers of
    the new one and makes the full call with it; the request a handler then
    receives has every header of the original request and every header of the
    new request. *)
Theorem call_moto_with_request_headers (context : RequestContext)
    (service_request : gmap string pyval) (w : World) (local_context : RequestContext) :
  create_aws_request_context (service_name (service context)) (name (operation context))
                             service_request (region context) = Ok local_context →
  let merged :=
    set_request local_context
      (set_headers (request local_context)
         (headers (request local_context) ++ headers (request context))) in
  call_moto_with_request context service_request w = call_moto merged false w ∧
  (handler_log (call_moto_with_request context service_request w).2 = handler_log w ∨
   ∃ h req,
     handler_log (call_moto_with_request context service_request w).2
       = (h, req) :: handler_log w ∧
     path req = path (request local_context) ∧
     (∀ kv, kv ∈ headers (request context) → kv ∈ headers req) ∧
     (∀ kv, kv ∈ headers (request local_context) → kv ∈ headers req)).
Proof.
  intros Hc merged.
  assert (call_moto_with_request context service_request w = call_moto merged false w) as Heq.
  { unfold call_moto_with_request, bind, lift. rewrite Hc.
    by rewrite Headers_extend_app. }
  split; [done|]. rewrite Heq, call_moto_world.
  destruct (dispatch_to_moto_log merged w) as [Hlog|[h Hlog]]; [by left|].
  right. exists h, (dispatched_request merged). split; [done|]. split; [done|].
  unfold dispatched_request, Headers_add. simpl.
  split; intros kv Hkv; rewrite !elem_of_app; tauto.
Qed.

(** *** The fallback wrapper *)

(** C1: for every operation of a provider wrapped by [MotoFallbackDispatcher]
    there is a wrapped method; when the provider's method raises
    [NotImplementedError] the wrapped method answers with what [proxy_moto]
    answers on the same context, an HTTP response with the status, headers
    and body of the raw dispatch result or the exception it raises; when the
    provider's method ends in any other way the wrapped method ends the same
    way. *)
Theorem MotoFallbackDispatcher_transparent (provider : gmap string ServiceRequestHandler)
    (op : string) (fn : ServiceRequestHandler) (context : RequestContext)
    (service_request : gmap string pyval) (w : World) :
  provider !! op = Some fn →
  ∃ wrapped,
    MotoFallbackDispatcher provider !! op = Some wrapped ∧
    (∀ w', fn context service_request w = (Raise NotImplementedError, w') →
       wrapped context service_request w
       = match proxy_moto context (Some service_request) w' with
         | (Ok r, w'') => (Ok (RawResponse r), w'')
         | (Raise e, w'') => (Raise e, w'')
         end ∧
       ∀ raw w'', dispatch_to_moto context w' = (Ok raw, w'') →
         wrapped context service_request w
         = (Ok (RawResponse (mkResponse raw.2 raw.1.1 raw.1.2)), w'')) ∧
    (∀ outcome w', fn context service_request w = (outcome, w') →
       outcome ≠ Raise NotImplementedError →
       wrapped context service_request w = (outcome, w')).
Proof.
  intros Hop. exists (wrap_with_fallthrough fn proxy_moto_handler).
  split; [|split].
  - unfold MotoFallbackDispatcher, ForwardingFallbackDispatcher.
    by rewrite lookup_fmap, Hop.
  - intros w' Hfn. unfold wrap_with_fallthrough, try_except. rewrite Hfn.
    unfold proxy_moto_handler, bind, ret. split.
    + by destruct (proxy_moto context (Some service_request) w') as [[r|e] w''].
    + intros raw w'' Hd. unfold proxy_moto, bind, ret. by rewrite Hd.
  - intros outcome w' Hfn Hne. unfold wrap_with_fallthrough, try_except. rewrite Hfn.
    destruct outcome as [r|e]; [done|]. by destruct e.
Qed.

(** *** The cache *)

Lemma cache_lookup_cons (key k : string) (v : Map Handler) (c : list (string * Map Handler)) :
  cache_lookup key ((k, v) :: c) = if decide (k = key) then Some v else cache_lookup key c.
Proof.
  unfold cache_lookup. simpl. case_bool_decide; by case_decide.
Qed.

Lemma cache_lookup_None (key : string) (c : list (string * Map Handler)) :
  cache_lookup key c = None ↔ key ∉ c.*1.
Proof.
  induction c as [|[k v] c IH].
  - split; [intros _; apply not_elem_of_nil|done].
  - rewrite cache_lookup_cons, fmap_cons, not_elem_of_cons. simpl.
    case_decide as Hk.
    + split; [done|]. intros [Hne _]. by destruct Hne.
    + rewrite IH. split; [by intros; split; [congruence|]|by intros [_ ?]].
Qed.

Lemma cache_lookup_take (key : string) (v : Map Handler) (c : list (string * Map Handler)) :
  cache_lookup key (take lru_maxsize ((key, v) :: c)) = Some v.
Proof. simpl. rewrite cache_lookup_cons. by rewrite decide_True. Qed.

Lemma cache_lookup_remove (key : string) (v : Map Handler) (c : list (string * Map Handler)) :
  cache_lookup key ((key, v) :: cache_remove key c) = Some v.
Proof. rewrite cache_lookup_cons. by rewrite decide_True. Qed.

Lemma cache_remove_absent (key : string) (c : list (string * Map Handler)) :
  key ∉ c.*1 → cache_remove key c = c.
Proof.
  unfold cache_remove. induction c as [|[k v] c IH]; [done|].
  rewrite fmap_cons, not_elem_of_cons. simpl. intros [Hne Hc].
  rewrite filter_cons_True by (simpl; congruence). by rewrite IH.
Qed.

(** Making a stored key the most recent one reorders the cache. *)
Lemma cache_move_to_front (key : string) (v : Map Handler) (c : list (string * Map Handler)) :
  NoDup c.*1 → cache_lookup key c = Some v →
  ((key, v) :: cache_remove key c).*1 ≡ₚ c.*1.
Proof.
  induction c as [|[k v'] c IH]; [done|].
  rewrite fmap_cons, NoDup_cons, cache_lookup_cons. simpl. intros [Hk Hc] Hl.
  unfold cache_remove. case_decide as Hkey.
  - inversion Hl; subst. rewrite filter_cons_False by (simpl; tauto).
    fold (cache_remove key c). by rewrite cache_remove_absent.
  - rewrite filter_cons_True by done. fold (cache_remove key c).
    rewrite fmap_cons. simpl. rewrite <- (IH Hc Hl). rewrite fmap_cons. simpl.
    apply Permutation_swap.
Qed.

Lemma get_moto_routing_table_hit (service : string) (w : World) (t : Map Handler) :
  cache_lookup service (routing_cache w) = Some t →
  get_moto_routing_table service w
  = (Ok t, set_routing_cache w ((service, t) :: cache_remove service (routing_cache w))).
Proof. intros Hl. unfold get_moto_routing_table, lru_cache. by rewrite Hl. Qed.

Lemma get_moto_routing_table_miss (service : string) (w : World) :
  cache_lookup service (routing_cache w) = None →
  get_moto_routing_table service w
  = match built_table service with
    | Ok t =>
        (Ok t, set_routing_cache (logged service w)
                 (take lru_maxsize ((service, t) :: routing_cache w)))
    | Raise e => (Raise e, logged service w)
    end.
Proof.
  intros Hl. unfold get_moto_routing_table, lru_cache.
  rewrite Hl, load_moto_routing_table_eq.
  destruct (built_table service); [|done]. simpl. by rewrite Hl.
Qed.

(** One caller that runs its three steps alone does what [lru_cache] does. *)
Lemma caller_alone (f : string → M (Map Handler)) (key : string) (w : World) :
  let s1 := caller_step f (Calling key) w in
  let s2 := caller_step f s1.1 s1.2 in
  let s3 := caller_step f s2.1 s2.2 in
  s3 = (Returned (lru_cache f key w).1, (lru_cache f key w).2).
Proof.
  unfold lru_cache. simpl.
  destruct (cache_lookup key (routing_cache w)) as [v|] eqn:Hl; simpl; [done|].
  destruct (f key w) as [[v|e] w'] eqn:Hf; simpl; [|done].
  by destruct (cache_lookup key (routing_cache w')).
Qed.

(** Sequential use within the bound of the cache. *)

Lemma NoDup_length_le_size (l : list string) (S : gset string) :
  NoDup l → (∀ x, x ∈ l → x ∈ S) → (length l ≤ size S)%nat.
Proof.
  intros Hnd Hsub. rewrite <- (size_list_to_set (C := gset string) l Hnd).
  apply subseteq_size. intros x Hx. apply elem_of_list_to_set in Hx. by apply Hsub.
Qed.

Lemma get_moto_routing_table_no_rebuild (S : gset string) (service : string) (w : World) :
  (∃ t, built_table service = Ok t) →
  service ∈ S →
  (∀ x, x ∈ builder_log w → x ∈ S) →
  (size S ≤ lru_maxsize)%nat →
  (routing_cache w).*1 ≡ₚ builder_log w →
  NoDup (builder_log w) →
  let w' := (get_moto_routing_table service w).2 in
  (routing_cache w').*1 ≡ₚ builder_log w' ∧
  NoDup (builder_log w') ∧
  (∀ x, x ∈ builder_log w' → x ∈ S).
Proof.
  intros [t Ht] HS Hsub Hsize Hperm Hnd w'. subst w'.
  destruct (cache_lookup service (routing_cache w)) as [v|] eqn:Hl.
  - rewrite (get_moto_routing_table_hit _ _ _ Hl). simpl.
    split; [|done]. rewrite <- Hperm. apply (cache_move_to_front _ v); [|done].
    by rewrite Hperm.
  - rewrite (get_moto_routing_table_miss _ _ Hl), Ht. simpl.
    apply cache_lookup_None in Hl. rewrite Hperm in Hl.
    assert (NoDup (service :: builder_log w)) as Hnd' by by constructor.
    assert (∀ x, x ∈ service :: builder_log w → x ∈ S) as Hsub'.
    { intros x [->|Hx]%elem_of_cons; auto. }
    pose proof (NoDup_length_le_size _ _ Hnd' Hsub') as Hlen. simpl in Hlen.
    assert (length (routing_cache w) = length (builder_log w)) as Hlen'.
    { rewrite <- (length_fmap fst (routing_cache w)). by apply Permutation_length. }
    split; [|done].
    rewrite take_ge by (unfold lru_maxsize in *; simpl; lia).
    simpl. by rewrite Hperm.
Qed.

Lemma call_all_no_rebuild (S : gset string) (services : list string) (w : World) :
  (∀ s, s ∈ services → ∃ t, built_table s = Ok t) →
  (∀ s, s ∈ services → s ∈ S) →
  (∀ x, x ∈ builder_log w → x ∈ S) →
  (size S ≤ lru_maxsize)%nat →
  (routing_cache w).*1 ≡ₚ builder_log w →
  NoDup (builder_log w) →
  NoDup (builder_log (call_all services w)).
Proof.
  revert w. induction services as [|s services IH]; intros w Hknown HS Hsub Hsize Hperm Hnd.
  - done.
  - simpl.
    destruct (get_moto_routing_table_no_rebuild S s w) as (Hperm' & Hnd' & Hsub'); auto.
    + apply Hknown, list_elem_of_here.
    + apply HS, list_elem_of_here.
    + apply IH; auto.
      * intros s' Hs'. by apply Hknown, list_elem_of_further.
      * intros s' Hs'. by apply HS, list_elem_of_further.
Qed.

(** Concurrent callers. *)

Arguments cache_lookup : simpl never.
Arguments cache_remove : simpl never.

Lemma sum_list_with_insert (f : caller → nat) (l : list caller) (i : nat) (c c' : caller) :
  l !! i = Some c →
  (sum_list_with f (<[i := c']> l) + f c = sum_list_with f l + f c')%nat.
Proof.
  revert i. induction l as [|x l IH]; intros [|i] Hi; simpl in *; try done.
  - inversion Hi; subst. lia.
  - specialize (IH i Hi). lia.
Qed.

Lemma sum_progressed_le_length (l : list caller) :
  (sum_list_with progressed l ≤ length l)%nat.
Proof.
  induction l as [|c l IH]; simpl; [done|]. destruct c; simpl; lia.
Qed.

Lemma sum_progressed_returned (l : list caller) :
  (0 < length l)%nat → Forall is_returned l → (1 ≤ sum_list_with progressed l)%nat.
Proof.
  destruct l as [|c l]; simpl; [lia|]. intros _ Hall.
  apply Forall_cons in Hall as [Hc _]. destruct c; simpl in *; try done; lia.
Qed.

Lemma callers_inv_step (service : string) (t : Map Handler) (log0 : list string)
    (cfg : list caller * World) (i : nat) :
  built_table service = Ok t →
  callers_inv service t log0 cfg →
  callers_inv service t log0 (sched_step load_moto_routing_table cfg i).
Proof.
  intros Ht. destruct cfg as [callers w]. intros (Hall & Hcache & k & Hlog & Hle & Hge).
  simpl in *. unfold sched_step. simpl.
  destruct (callers !! i) as [c|] eqn:Hi; [|by repeat split; eauto].
  pose proof (Forall_lookup_1 _ _ _ _ Hall Hi) as Hc.
  pose proof (sum_list_with_in _ progressed _ (list_elem_of_lookup_2 _ _ _ Hi)) as Hin.
  destruct Hc as [-> | [-> | [-> | ->]]]; simpl.
  - destruct (cache_lookup service (routing_cache w)) as [v|] eqn:Hl; simpl.
    + pose proof (Hcache v eq_refl) as ->.
      pose proof (sum_list_with_insert progressed _ _ _ (Returned (Ok t)) Hi) as Hsum.
      simpl in Hsum. split; [|split]; simpl.
      * apply Forall_insert; auto.
      * intros v. rewrite cache_lookup_remove. congruence.
      * exists k. split; [done|]. split; [lia|]. intros _. apply Hge. right. eauto.
    + pose proof (sum_list_with_insert progressed _ _ _ (Missed service) Hi) as Hsum.
      simpl in Hsum. split; [|split]; simpl.
      * apply Forall_insert; auto.
      * by rewrite Hl.
      * exists k. split; [done|]. split; [lia|]. rewrite Hl.
        intros [?|[? ?]]; [|done]. apply Hge. left. lia.
  - rewrite load_moto_routing_table_eq, Ht. simpl.
    pose proof (sum_list_with_insert progressed _ _ _ (Computed service t) Hi) as Hsum.
    simpl in Hsum. split; [|split]; simpl.
    + apply Forall_insert; auto.
    + done.
    + exists (S k). split; [by rewrite Hlog|]. split; lia.
  - pose proof (sum_list_with_insert progressed _ _ _ (Returned (Ok t)) Hi) as Hsum.
    simpl in Hsum, Hin.
    destruct (cache_lookup service (routing_cache w)) as [v|] eqn:Hl; simpl.
    + split; [|split]; simpl.
      * apply Forall_insert; auto.
      * by rewrite Hl.
      * exists k. split; [done|]. split; [lia|]. intros _. apply Hge. left. lia.
    + split; [|split]; simpl.
      * apply Forall_insert; auto.
      * intros v. rewrite cache_lookup_cons, decide_True by done. congruence.
      * exists k. split; [done|]. split; [lia|]. intros _. apply Hge. left. lia.
  - rewrite list_insert_id by done. by repeat split; eauto.
Qed.

Lemma callers_inv_run (service : string) (t : Map Handler) (log0 : list string)
    (schedule : list nat) (cfg : list caller * World) :
  built_table service = Ok t →
  callers_inv service t log0 cfg →
  callers_inv service t log0 (run_schedule load_moto_routing_table schedule cfg).
Proof.
  intros Ht. unfold run_schedule. revert cfg.
  induction schedule as [|i schedule IH]; intros cfg Hinv; simpl; [done|].
  apply IH. by apply callers_inv_step.
Qed.

Lemma run_schedule_length (f : string → M (Map Handler)) (schedule : list nat)
    (cfg : list caller * World) :
  length (run_schedule f schedule cfg).1 = length cfg.1.
Proof.
  unfold run_schedule. revert cfg.
  induction schedule as [|i schedule IH]; intros cfg; simpl; [done|].
  rewrite IH. unfold sched_step. destruct (cfg.1 !! i) as [c|]; [|done].
  destruct (caller_step f c cfg.2). simpl. by rewrite length_insert.
Qed.

(** However the steps of [N] callers for the same service that is not in the
    cache interleave, each caller that has returned has the table the
    builder makes, and the builder has run at most [N] times, and at least
    once when all have returned. *)
Lemma concurrent_callers (service : string) (t : Map Handler) (N : nat)
    (schedule : list nat) (w : World) :
  cache_lookup service (routing_cache w) = None →
  built_table service = Ok t →
  let cfg := run_schedule load_moto_routing_table schedule
               (replicate N (Calling service), w) in
  (∀ i r, cfg.1 !! i = Some (Returned r) → r = Ok t) ∧
  ∃ k : nat,
    builder_log cfg.2 = replicate k service ++ builder_log w ∧
    (k ≤ N)%nat ∧
    ((0 < N)%nat → Forall is_returned cfg.1 → (1 ≤ k)%nat).
Proof.
  intros Hl Ht cfg.
  assert (callers_inv service t (builder_log w) (replicate N (Calling service), w)) as Hinit.
  { split; [|split]; simpl.
    - apply Forall_replicate. auto.
    - by rewrite Hl.
    - exists 0%nat. split; [done|]. split; [lia|]. rewrite Hl.
      intros [Hsum|[? ?]]; [|done].
      pose proof (sum_progressed_le_length (replicate N (Calling service))) as Hle.
      assert (sum_list_with progressed (replicate N (Calling service)) = 0%nat) as Hz.
      { clear. induction N; simpl; [done|]. by rewrite IHN. }
      lia. }
  pose proof (callers_inv_run _ _ _ schedule _ Ht Hinit) as (Hall & _ & k & Hlog & Hle & Hge).
  fold cfg in Hall, Hlog, Hle, Hge.
  pose proof (run_schedule_length load_moto_routing_table schedule
                (replicate N (Calling service), w)) as Hlen.
  fold cfg in Hlen. simpl in Hlen. rewrite length_replicate in Hlen.
  split.
  - intros i r Hi. pose proof (Forall_lookup_1 _ _ _ _ Hall Hi) as Hc.
    destruct Hc as [?|[?|[?|?]]]; congruence.
  - exists k. split; [done|]. split.
    + pose proof (sum_progressed_le_length cfg.1). lia.
    + intros HN Hret. apply Hge. left. apply sum_progressed_returned; [lia|done].
Qed.

(** C6, amended: for a service the backend engine knows,
    [get_moto_routing_table] returns a table that is in the cache without
    running the builder; for a service that is not in the cache it runs the
    builder once, returns its table and stores it, so that the next call for
    the service does not build again; calls made one after the other from an
    empty cache for at most 128 services build each table at most once; and
    however [N] concurrent callers for the same service that is not in the
    cache interleave, the builder runs at most [N] times, at least once when
    all have returned, and every caller has the builder's table. *)
Theorem get_moto_routing_table_memoizes (service : string) (t : Map Handler) (w : World) :
  built_table service = Ok t →
  (∀ t', cache_lookup service (routing_cache w) = Some t' →
     (get_moto_routing_table service w).1 = Ok t' ∧
     builder_log (get_moto_routing_table service w).2 = builder_log w ∧
     cache_lookup service (routing_cache (get_moto_routing_table service w).2) = Some t')
  ∧ (cache_lookup service (routing_cache w) = None →
     (get_moto_routing_table service w).1 = Ok t ∧
     builder_log (get_moto_routing_table service w).2 = service :: builder_log w ∧
     cache_lookup service (routing_cache (get_moto_routing_table service w).2) = Some t ∧
     (get_moto_routing_table service (get_moto_routing_table service w).2).1 = Ok t ∧
     builder_log (get_moto_routing_table service (get_moto_routing_table service w).2).2
       = service :: builder_log w)
  ∧ (∀ services : list string,
       routing_cache w = [] → builder_log w = [] →
       (∀ s, s ∈ services → ∃ t', built_table s = Ok t') →
       (size (list_to_set services : gset string) ≤ lru_maxsize)%nat →
       NoDup (builder_log (call_all services w)))
  ∧ (∀ (N : nat) (schedule : list nat),
       cache_lookup service (routing_cache w) = None →
       let cfg := run_schedule load_moto_routing_table schedule
                    (replicate N (Calling service), w) in
       (∀ i r, cfg.1 !! i = Some (Returned r) → r = Ok t) ∧
       ∃ k : nat,
         builder_log cfg.2 = replicate k service ++ builder_log w ∧
         (k ≤ N)%nat ∧
         ((0 < N)%nat → Forall is_returned cfg.1 → (1 ≤ k)%nat)).
Proof.
  intros Ht. split; [|split; [|split]].
  - intros t' Hl. rewrite (get_moto_routing_table_hit _ _ _ Hl). simpl.
    split; [done|]. split; [done|]. apply cache_lookup_remove.
  - intros Hl. rewrite (get_moto_routing_table_miss _ _ Hl), Ht. simpl.
    split; [done|]. split; [done|]. split; [by apply cache_lookup_take|].
    rewrite (get_moto_routing_table_hit _ _ t) by by apply cache_lookup_take.
    done.
  - intros services Hcache Hlog Hknown Hsize.
    apply (call_all_no_rebuild (list_to_set services)); auto.
    + intros s Hs. by apply elem_of_list_to_set.
    + rewrite Hlog. intros x Hx. by apply elem_of_nil in Hx.
    + by rewrite Hcache, Hlog.
    + rewrite Hlog. constructor.
  - intros N schedule Hl. by apply concurrent_callers.
Qed.

End MotoTheory.

(** ** Further properties of the module *)

Section MotoFurther.
Context {imports : Imports}.

(** *** The builder and the cache on a failure *)

(** X1: a service moto does not know makes [get_moto_routing_table] raise
    [KeyError]; the failure is not stored, so every call runs the builder
    again and the cache stays as it was. *)
Theorem get_moto_routing_table_unknown_service (service : string) (w : World) (n : nat) :
  get_backend service = None →
  cache_lookup service (routing_cache w) = None →
  routing_cache (call_all (replicate n service) w) = routing_cache w ∧
  builder_log (call_all (replicate n service) w) = replicate n service ++ builder_log w ∧
  (get_moto_routing_table service (call_all (replicate n service) w)).1
    = Raise (KeyError service).
Proof.
  intros Hb. revert w. induction n as [|n IH]; intros w Hl; simpl.
  - rewrite (get_moto_routing_table_miss _ _ Hl). unfold built_table. by rewrite Hb.
  - assert (get_moto_routing_table service w = (Raise (KeyError service), logged service w))
      as Hcall.
    { rewrite (get_moto_routing_table_miss _ _ Hl). unfold built_table. by rewrite Hb. }
    rewrite Hcall. simpl.
    destruct (IH (logged service w) Hl) as (Hc & Hlog & Hr).
    split; [exact Hc|]. split; [|exact Hr].
    rewrite Hlog. simpl. clear. induction n as [|n IHn]; simpl; [done|]. by rewrite IHn.
Qed.

(** X2: when moto knows the service but has no instance the builder would
    take, the builder raises the [KeyError] of the lookup that fails: of the
    default account when a [BackendDict] has no entry for it, of "global"
    otherwise. *)
Theorem load_moto_routing_table_no_instance (service : string)
    (bd : backend_dict Backend) (w : World) :
  get_backend service = Some bd →
  preferred_instance bd = None →
  load_moto_routing_table service w
  = (Raise (KeyError match bd with
                     | BackendDict accounts =>
                         if decide (is_Some (accounts !! DEFAULT_AWS_ACCOUNT_ID))
                         then "global" else DEFAULT_AWS_ACCOUNT_ID
                     | PlainDict _ => "global"
                     end),
     logged service w).
Proof.
  intros Hb Hp. rewrite load_moto_routing_table_eq. unfold built_table.
  rewrite Hb, Hp. destruct bd as [accounts|backends]; [|done].
  destruct (accounts !! DEFAULT_AWS_ACCOUNT_ID) as [regions|] eqn:Ha.
  - rewrite decide_True by eauto. done.
  - rewrite decide_False by (intros [? ?]; done). done.
Qed.

(** *** The resolver *)

(** X3: when the routing table has no entry, or two or more, and no pattern
    matches the path, the resolver raises werkzeug's [NotFound]. *)
Theorem get_dispatcher_no_match (service path : string) (w w' : World) (t : Map Handler) :
  get_moto_routing_table service w = (Ok t, w') →
  length (_rules t) ≠ 1%nat →
  (∀ r, r ∈ _rules t → rule_match r path = false) →
  get_dispatcher service path w = (Raise NotFound, w').
Proof.
  intros Ht Hlen Hno. rewrite (get_dispatcher_eq _ _ _ _ _ Ht).
  rewrite decide_False by done. unfold lift, MapAdapter_match, Map_update.
  destruct (find _ _) as [r|] eqn:Hf; [|done].
  apply find_elem_of in Hf as [Hin Hm]. apply stable_sort_elem_of in Hin.
  rewrite (Hno r Hin) in Hm. discriminate.
Qed.

(** X4: a handler the resolver returns is the handler of an entry of the
    service's routing table, and with two or more entries of one whose
    pattern matches the path. *)
Theorem get_dispatcher_registered (service path : string) (w w' : World) (h : Handler) :
  get_dispatcher service path w = (Ok h, w') →
  ∃ t r,
    get_moto_routing_table service w = (Ok t, w') ∧
    r ∈ _rules t ∧ endpoint r = h ∧
    (length (_rules t) ≠ 1%nat → rule_match r path = true).
Proof.
  intros Hd.
  destruct (get_moto_routing_table service w) as [[t|e] w1] eqn:Ht.
  - rewrite (get_dispatcher_eq _ _ _ _ _ Ht) in Hd. case_decide as Hlen.
    + unfold Map_first_rule, Map_update in Hd.
      destruct (_rules t) as [|r [|r' l]] eqn:Hr; simpl in Hlen; try done.
      simpl in Hd. inversion Hd; subst. exists t, r. rewrite Hr.
      split; [done|]. split; [apply list_elem_of_here|]. split; [done|]. done.
    + unfold lift, MapAdapter_match, Map_update in Hd.
      destruct (find _ _) as [r|] eqn:Hf; [|done].
      inversion Hd; subst. apply find_elem_of in Hf as [Hin Hm].
      apply stable_sort_elem_of in Hin. exists t, r. done.
  - rewrite (get_dispatcher_raises _ _ _ _ _ Ht) in Hd. done.
Qed.

(** X5: with two or more entries, a path that matches the pattern of entry
    [i] and of no other entry resolves to the handler of entry [i], whatever
    the keys of the entries are. *)
Theorem get_dispatcher_unique_match (service path : string) (w w' : World)
    (t : Map Handler) (i : nat) (r : Rule Handler) :
  get_moto_routing_table service w = (Ok t, w') →
  (2 ≤ length (_rules t))%nat →
  _rules t !! i = Some r →
  rule_match r path = true →
  (∀ j r', j ≠ i → _rules t !! j = Some r' → rule_match r' path = false) →
  get_dispatcher service path w = (Ok (endpoint r), w').
Proof.
  intros Ht Hlen Hi Hr Hother.
  rewrite (get_dispatcher_eq _ _ _ _ _ Ht).
  rewrite decide_False by lia.
  unfold lift, MapAdapter_match, Map_update.
  rewrite <- (take_drop_middle _ _ _ Hi).
  rewrite (find_stable_sort_at match_compare_key (fun r => rule_match r path)); [done|done| |].
  - intros y Hy. apply list_elem_of_lookup in Hy as [j Hj].
    apply lookup_take_Some in Hj as [Hj Hlt]. apply (Hother j); [lia|done].
  - intros y Hy HPy. apply list_elem_of_lookup in Hy as [j Hj].
    rewrite lookup_drop in Hj. rewrite (Hother (S i + j)%nat y) in HPy; [done|lia|done].
Qed.

(** *** The executor *)

(** X6: a dispatch is one attempt.  When the resolver finds a handler, the
    executor calls that handler once, with the request of the context to
    which the account header is appended and nothing else is changed; when
    the resolver fails, its exception passes, no handler is called and moto's
    state is untouched. *)
Theorem dispatch_to_moto_one_call (context : RequestContext) (w : World) :
  (∀ h w1,
     get_dispatcher (service_name (service context)) (path (request context)) w = (Ok h, w1) →
     handler_log (dispatch_to_moto context w).2
       = (h, dispatched_request context) :: handler_log w ∧
     dispatched_request context
       = mkHttpRequest (method (request context)) (path (request context))
           (url (request context))
           (headers (request context) ++ [("x-moto-account-id", get_aws_account_id)])
           (data (request context)) ∧
     moto_state (dispatch_to_moto context w).2
       = (invoke h (dispatched_request context) (url (request context))
                 (headers (dispatched_request context)) (moto_state w)).2) ∧
  (∀ e w1,
     get_dispatcher (service_name (service context)) (path (request context)) w
       = (Raise e, w1) →
     dispatch_to_moto context w = (Raise e, w1) ∧
     handler_log w1 = handler_log w ∧ moto_state w1 = moto_state w).
Proof.
  pose proof (get_dispatcher_world (service_name (service context))
                (path (request context)) w) as Hw.
  pose proof (get_moto_routing_table_frame (service_name (service context)) w)
    as [Hstate Hlog].
  split.
  - intros h w1 Hd. rewrite Hd in Hw. simpl in Hw. subst w1.
    rewrite (dispatch_to_moto_eq _ _ _ _ Hd). unfold try_except, call_handler.
    rewrite Hstate. simpl.
    destruct (invoke h _ _ _ _) as [[r|e] s]; simpl.
    + by rewrite Hlog.
    + destruct e; simpl; by rewrite Hlog.
  - intros e w1 Hd. rewrite Hd in Hw. simpl in Hw. subst w1.
    by rewrite (dispatch_to_moto_resolver_raises _ _ _ _ Hd).
Qed.

(** X7: an exception of the handler that is not a [RESTError] leaves the
    executor as it is. *)
Theorem dispatch_to_moto_other_exception (context : RequestContext) (w w1 : World)
    (h : Handler) (e : exn) (s : BackendState) :
  get_dispatcher (service_name (service context)) (path (request context)) w = (Ok h, w1) →
  invoke h (dispatched_request context) (url (dispatched_request context))
         (headers (dispatched_request context)) (moto_state w1) = (Raise e, s) →
  (∀ error_type message code, e ≠ RESTError error_type message code) →
  dispatch_to_moto context w = (Raise e, called h (dispatched_request context) s w1).
Proof.
  intros Hd Hinv Hne. rewrite (dispatch_to_moto_eq _ _ _ _ Hd).
  unfold try_except, call_handler. rewrite Hinv.
  destruct e; try done. by destruct (Hne error_type message code).
Qed.

(** *** The translator *)

(** X8: every status below 301 is a success: [call_moto] returns the parsed
    body, without "ResponseMetadata" unless it is asked for, and raises
    nothing. *)
Theorem call_moto_success_below_301 (context : RequestContext)
    (include_response_metadata : bool) (w w1 : World) (status : Z)
    (hdrs : gmap string string) (content : string) (body : gmap string pyval) :
  dispatch_to_moto context w = (Ok (status, hdrs, content), w1) →
  status < 301 →
  parse_response (operation context) (mkResponse content status hdrs) = Ok body →
  call_moto context include_response_metadata w
  = (Ok (if include_response_metadata then body else delete "ResponseMetadata" body), w1).
Proof.
  intros Hd Hs Hp. rewrite (call_moto_eq _ _ _ _ _ _ _ Hd), Hp.
  rewrite decide_False by lia. by destruct include_response_metadata.
Qed.

(** X9: with a status of 301 or more and an "Error" entry that is not a
    mapping, [call_moto] raises the [AttributeError] of [error.get] and no
    [CommonServiceException]. *)
Theorem call_moto_error_not_mapping (context : RequestContext)
    (include_response_metadata : bool) (w w1 : World) (status : Z)
    (hdrs : gmap string string) (content : string) (body : gmap string pyval)
    (error : pyval) :
  dispatch_to_moto context w = (Ok (status, hdrs, content), w1) →
  status >= 301 →
  parse_response (operation context) (mkResponse content status hdrs) = Ok body →
  body !! "Error" = Some error →
  (∀ d, error ≠ PyDict d) →
  call_moto context include_response_metadata w = (Raise (AttributeError "get"), w1).
Proof.
  intros Hd Hs Hp He Hnd. rewrite (call_moto_eq _ _ _ _ _ _ _ Hd), Hp.
  rewrite decide_True by done. rewrite He.
  destruct error; try done. by destruct (Hnd d).
Qed.

(** X10: with a status of 301 or more [call_moto] returns no response,
    whatever the body parses to. *)
Theorem call_moto_error_never_returns (context : RequestContext)
    (include_response_metadata : bool) (w w1 : World) (status : Z)
    (hdrs : gmap string string) (content : string) :
  dispatch_to_moto context w = (Ok (status, hdrs, content), w1) →
  status >= 301 →
  ∃ e, call_moto context include_response_metadata w = (Raise e, w1).
Proof.
  intros Hd Hs. rewrite (call_moto_eq _ _ _ _ _ _ _ Hd).
  destruct (parse_response _ _) as [body|e]; [|eauto].
  rewrite decide_True by done.
  destruct (body !! "Error") as [v|]; [|eauto]. destruct v; eauto.
Qed.

(** X11: a response of [call_moto] without [include_response_metadata], and
    so every response of [call_moto_with_request], has no
    "ResponseMetadata". *)
Theorem call_moto_no_metadata (context : RequestContext) (w : World) :
  (∀ r w', call_moto context false w = (Ok r, w') → r !! "ResponseMetadata" = None) ∧
  (∀ service_request r w',
     call_moto_with_request context service_request w = (Ok r, w') →
     r !! "ResponseMetadata" = None).
Proof.
  assert (∀ c r w', call_moto c false w = (Ok r, w') → r !! "ResponseMetadata" = None)
    as Hcall.
  { intros c r w' Hc.
    destruct (dispatch_to_moto c w) as [[[[status hdrs] content]|e] w1] eqn:Hd.
    - rewrite (call_moto_eq _ _ _ _ _ _ _ Hd) in Hc.
      destruct (parse_response _ _) as [body|e]; [|done].
      case_decide.
      + destruct (body !! "Error") as [v|]; [|done]. by destruct v.
      + simpl in Hc. inversion Hc; subst. apply lookup_delete_eq.
    - unfold call_moto, bind in Hc. by rewrite Hd in Hc. }
  split; [apply Hcall|].
  intros service_request r w'. unfold call_moto_with_request, bind, lift.
  destruct (create_aws_request_context _ _ _ _) as [local_context|e]; [|done].
  apply Hcall.
Qed.

(** X12: the flag changes nothing but the "ResponseMetadata" of the
    response: the call without it ends as the call with it does, with that
    key deleted from a response. *)
Theorem call_moto_metadata_flag (context : RequestContext) (w : World) :
  call_moto context false w
  = match call_moto context true w with
    | (Ok r, w') => (Ok (delete "ResponseMetadata" r), w')
    | (Raise e, w') => (Raise e, w')
    end.
Proof.
  destruct (dispatch_to_moto context w) as [[[[status hdrs] content]|e] w1] eqn:Hd.
  - rewrite !(call_moto_eq _ _ _ _ _ _ _ Hd).
    destruct (parse_response _ _) as [body|e]; [|done].
    case_decide; [|done].
    destruct (body !! "Error") as [v|]; [|done]. by destruct v.
  - unfold call_moto, bind. by rewrite Hd.
Qed.

(** *** The pass-through *)

(** X13: [proxy_moto] does not use its service request; it answers every raw
    dispatch result, whatever its status, with the HTTP response of that
    status, headers and body, passes an exception of the dispatch, and
    leaves the state that [call_moto] leaves. *)
Theorem proxy_moto_raw (context : RequestContext) (w : World) :
  (∀ service_request, proxy_moto context service_request w = proxy_moto context None w) ∧
  (∀ status hdrs content w1,
     dispatch_to_moto context w = (Ok (status, hdrs, content), w1) →
     proxy_moto context None w = (Ok (mkResponse content status hdrs), w1)) ∧
  (∀ e w1, dispatch_to_moto context w = (Raise e, w1) →
     proxy_moto context None w = (Raise e, w1)) ∧
  (∀ include_response_metadata,
     (proxy_moto context None w).2 = (call_moto context include_response_metadata w).2).
Proof.
  split; [done|]. split; [|split].
  - intros status hdrs content w1 Hd. unfold proxy_moto, bind. by rewrite Hd.
  - intros e w1 Hd. unfold proxy_moto, bind. by rewrite Hd.
  - intros flag. rewrite call_moto_world. unfold proxy_moto, bind.
    by destruct (dispatch_to_moto context w) as [[r|e] w1].
Qed.

(** *** Calling with a modified request *)

(** X14: [call_moto_with_request] resolves the handler for the service and
    the path of the new context; the handler receives the new request with
    its own headers first, the headers of the original request after them
    and the account header last.  When the new context cannot be made, the
    exception passes and nothing is dispatched. *)
Theorem call_moto_with_request_dispatch (context : RequestContext)
    (service_request : gmap string pyval) (w : World) :
  (∀ local_context h w1,
     create_aws_request_context (service_name (service context)) (name (operation context))
                                service_request (region context) = Ok local_context →
     get_dispatcher (service_name (service local_context))
                    (path (request local_context)) w = (Ok h, w1) →
     handler_log (call_moto_with_request context service_request w).2
       = (h, mkHttpRequest (method (request local_context)) (path (request local_context))
               (url (request local_context))
               (headers (request local_context) ++ headers (request context)
                  ++ [("x-moto-account-id", get_aws_account_id)])
               (data (request local_context)))
         :: handler_log w) ∧
  (∀ e,
     create_aws_request_context (service_name (service context)) (name (operation context))
                                service_request (region context) = Raise e →
     call_moto_with_request context service_request w = (Raise e, w)).
Proof.
  split.
  - intros local_context h w1 Hc Hd.
    unfold call_moto_with_request, bind, lift. rewrite Hc.
    rewrite Headers_extend_app.
    match goal with |- context [call_moto ?c false w] => set (merged := c) end.
    rewrite call_moto_world.
    assert (get_dispatcher (service_name (service merged)) (path (request merged)) w
            = (Ok h, w1)) as Hd' by exact Hd.
    pose proof (get_dispatcher_world (service_name (service merged))
                  (path (request merged)) w) as Hw.
    pose proof (get_moto_routing_table_frame (service_name (service merged)) w)
      as [_ Hlog].
    rewrite Hd' in Hw. simpl in Hw. subst w1.
    rewrite (dispatch_to_moto_eq _ _ _ _ Hd'). unfold try_except, call_handler.
    assert (dispatched_request merged
            = mkHttpRequest (method (request local_context)) (path (request local_context))
                (url (request local_context))
                (headers (request local_context) ++ headers (request context)
                   ++ [("x-moto-account-id", get_aws_account_id)])
                (data (request local_context))) as ->.
    { unfold dispatched_request, Headers_add, merged. simpl. by rewrite <- app_assoc. }
    subst merged. simpl in Hlog.
    destruct (invoke h _ _ _ _) as [[r|e] s]; simpl.
    + by rewrite Hlog.
    + destruct e; simpl; by rewrite Hlog.
  - intros e Hc. unfold call_moto_with_request, bind, lift. by rewrite Hc.
Qed.

(** *** The cache *)

Lemma cache_remove_keys (key : string) (c : list (string * Map Handler)) :
  (cache_remove key c).*1 = filter (fun k => k ≠ key) c.*1.
Proof.
  unfold cache_remove. induction c as [|[k v] c IH]; [done|].
  rewrite fmap_cons. simpl. destruct (decide (k = key)) as [->|Hne].
  - rewrite !filter_cons_False by (simpl; tauto). exact IH.
  - rewrite !filter_cons_True by done. rewrite fmap_cons. simpl. by rewrite IH.
Qed.

Lemma cache_lookup_elem_of (key : string) (v : Map Handler) (c : list (string * Map Handler)) :
  cache_lookup key c = Some v → (key, v) ∈ c.
Proof.
  induction c as [|[k v'] c IH]; [done|].
  rewrite cache_lookup_cons. case_decide as Hk.
  - intros [= ->]. subst. apply list_elem_of_here.
  - intros Hl. by apply list_elem_of_further, IH.
Qed.

Lemma cache_lookup_remove_ne (key key' : string) (c : list (string * Map Handler)) :
  key ≠ key' → cache_lookup key (cache_remove key' c) = cache_lookup key c.
Proof.
  intros Hne. unfold cache_remove. induction c as [|[k v] c IH]; [done|].
  destruct (decide (k = key')) as [->|Hk].
  - rewrite filter_cons_False by (simpl; tauto).
    rewrite cache_lookup_cons, decide_False by done. exact IH.
  - rewrite filter_cons_True by done. rewrite !cache_lookup_cons. by rewrite IH.
Qed.

Lemma cache_lookup_take_Some (key : string) (v : Map Handler) (n : nat)
    (c : list (string * Map Handler)) :
  cache_lookup key (take n c) = Some v → cache_lookup key c = Some v.
Proof.
  revert n. induction c as [|[k v'] c IH]; intros [|n]; simpl; try done.
  rewrite !cache_lookup_cons. case_decide; [done|]. apply IH.
Qed.

(** One call keeps the cache within its bound and its keys distinct. *)
Lemma get_moto_routing_table_cache_shape (service : string) (w : World) :
  (length (routing_cache w) ≤ lru_maxsize)%nat →
  NoDup (routing_cache w).*1 →
  (length (routing_cache (get_moto_routing_table service w).2) ≤ lru_maxsize)%nat ∧
  NoDup (routing_cache (get_moto_routing_table service w).2).*1.
Proof.
  intros Hlen Hnd.
  destruct (cache_lookup service (routing_cache w)) as [v|] eqn:Hl.
  - rewrite (get_moto_routing_table_hit _ _ _ Hl). simpl. split.
    + pose proof (length_filter_lt (fun kv : string * Map Handler => kv.1 ≠ service)
                    (routing_cache w) (service, v)
                    (cache_lookup_elem_of _ _ _ Hl)) as Hlt.
      unfold cache_remove. simpl in Hlt. specialize (Hlt ltac:(tauto)). lia.
    + rewrite cache_remove_keys. constructor.
      * rewrite list_elem_of_filter. tauto.
      * by apply NoDup_filter.
  - rewrite (get_moto_routing_table_miss _ _ Hl).
    destruct (built_table service) as [t|e]; simpl; [|done]. split.
    + rewrite length_take. unfold lru_maxsize. lia.
    + change (NoDup (service :: (take 127 (routing_cache w)).*1)).
      rewrite fmap_take. apply cache_lookup_None in Hl.
      constructor.
      * intros Hin. apply Hl. eapply elem_of_sublist; [exact Hin|apply sublist_take].
      * eapply sublist_NoDup; [exact Hnd|apply sublist_take].
Qed.

(** X15: the cache never holds more than 128 tables and never two for one
    service, however many calls are made. *)
Theorem routing_cache_bounded (services : list string) (w : World) :
  (length (routing_cache w) ≤ lru_maxsize)%nat →
  NoDup (routing_cache w).*1 →
  (length (routing_cache (call_all services w)) ≤ lru_maxsize)%nat ∧
  NoDup (routing_cache (call_all services w)).*1.
Proof.
  revert w. induction services as [|s services IH]; intros w Hlen Hnd; simpl; [done|].
  destruct (get_moto_routing_table_cache_shape s w Hlen Hnd) as [Hlen' Hnd'].
  by apply IH.
Qed.

Lemma get_moto_routing_table_consistent (service : string) (w : World) :
  cache_consistent (routing_cache w) →
  (get_moto_routing_table service w).1 = built_table service ∧
  cache_consistent (routing_cache (get_moto_routing_table service w).2).
Proof.
  intros Hc.
  destruct (cache_lookup service (routing_cache w)) as [v|] eqn:Hl.
  - rewrite (get_moto_routing_table_hit _ _ _ Hl). simpl.
    split; [by rewrite (Hc _ _ Hl)|].
    intros key v'. rewrite cache_lookup_cons. case_decide as Hk.
    + intros [= <-]. subst. by apply Hc.
    + rewrite cache_lookup_remove_ne by done. apply Hc.
  - rewrite (get_moto_routing_table_miss _ _ Hl).
    destruct (built_table service) as [t|e] eqn:Hb; simpl; [|done].
    split; [done|]. intros key v' Hl'.
    apply (cache_lookup_take_Some _ _ lru_maxsize ((service, t) :: routing_cache w)) in Hl'.
    rewrite cache_lookup_cons in Hl'. case_decide as Hk.
    + inversion Hl'; subst. done.
    + by apply Hc.
Qed.

(** X16: the cache does not show in the answers: after any calls from an
    empty cache, a call for a service ends as the builder ends for it, with
    the builder's table or with its exception. *)
Theorem routing_cache_transparent (services : list string) (service : string) (w : World) :
  routing_cache w = [] →
  (get_moto_routing_table service (call_all services w)).1 = built_table service.
Proof.
  intros Hempty.
  assert (cache_consistent (routing_cache w)) as Hc.
  { rewrite Hempty. intros key v Hl. discriminate Hl. }
  clear Hempty. revert w Hc.
  induction services as [|s services IH]; intros w Hc; simpl.
  - by apply get_moto_routing_table_consistent.
  - apply IH. by apply get_moto_routing_table_consistent.
Qed.

Lemma cache_lookup_position (key : string) (c : list (string * Map Handler)) :
  cache_lookup key c = snd <$> cache_position key c.
Proof.
  induction c as [|[k v] c IH]; [done|].
  rewrite cache_lookup_cons. simpl. case_decide; [done|].
  rewrite IH. by destruct (cache_position key c) as [[i v']|].
Qed.

Lemma cache_position_remove (key key' : string) (i : nat) (v : Map Handler)
    (c : list (string * Map Handler)) :
  key ≠ key' →
  cache_position key c = Some (i, v) →
  ∃ j, (j ≤ i)%nat ∧ cache_position key (cache_remove key' c) = Some (j, v).
Proof.
  intros Hne. unfold cache_remove. revert i.
  induction c as [|[k v'] c IH]; intros i; [done|]. simpl.
  destruct (decide (k = key)) as [->|Hk].
  - intros [= <- <-]. rewrite filter_cons_True by done. simpl.
    rewrite decide_True by done. exists 0%nat. done.
  - destruct (cache_position key c) as [[i' v'']|] eqn:Hp; [|done].
    intros [= <- <-]. destruct (IH i' eq_refl) as (j & Hj & Hpos).
    destruct (decide (k = key')) as [->|Hk'].
    + rewrite filter_cons_False by (simpl; tauto). exists j. split; [lia|done].
    + rewrite filter_cons_True by done. simpl. rewrite decide_False by done.
      rewrite Hpos. exists (S j). split; [lia|done].
Qed.

Lemma cache_position_take (key : string) (i n : nat) (v : Map Handler)
    (c : list (string * Map Handler)) :
  cache_position key c = Some (i, v) → (i < n)%nat →
  cache_position key (take n c) = Some (i, v).
Proof.
  revert i n. induction c as [|[k v'] c IH]; intros i n; [done|]. simpl.
  destruct n as [|n]; [lia|]. simpl. case_decide; [done|].
  destruct (cache_position key c) as [[i' v'']|] eqn:Hp; [|done].
  intros [= <- <-] Hlt. by rewrite (IH i' n eq_refl) by lia.
Qed.

(** One call moves an entry at most one place towards the end. *)
Lemma get_moto_routing_table_position (key service : string) (i : nat)
    (v : Map Handler) (w : World) :
  cache_position key (routing_cache w) = Some (i, v) →
  (S i < lru_maxsize)%nat →
  ∃ j, (j ≤ S i)%nat ∧
       cache_position key (routing_cache (get_moto_routing_table service w).2) = Some (j, v).
Proof.
  intros Hp Hi.
  assert (cache_lookup key (routing_cache w) = Some v) as Hkey
    by by rewrite cache_lookup_position, Hp.
  destruct (cache_lookup service (routing_cache w)) as [v'|] eqn:Hl.
  - rewrite (get_moto_routing_table_hit _ _ _ Hl). simpl.
    destruct (decide (service = key)) as [->|Hne].
    + exists 0%nat. split; [lia|]. congruence.
    + destruct (cache_position_remove key service i v (routing_cache w)) as (j & Hj & Hpos);
        [done|done|].
      rewrite Hpos. exists (S j). split; [lia|done].
  - assert (service ≠ key) as Hne by congruence.
    rewrite (get_moto_routing_table_miss _ _ Hl).
    destruct (built_table service) as [t|e]; simpl.
    + exists (S i). split; [lia|].
      rewrite decide_False by done.
      by rewrite (cache_position_take key i 127 v) by (done || unfold lru_maxsize in Hi; lia).
    + exists i. split; [lia|done].
Qed.

(** X17: a table at place [i] of the cache, counted from the most recent
    entry, is still in the cache after any [n] further calls with
    [i + n < 128], whatever services they ask for. *)
Theorem routing_cache_retention (services : list string) (service : string)
    (i : nat) (t : Map Handler) (w : World) :
  cache_position service (routing_cache w) = Some (i, t) →
  (i + length services < lru_maxsize)%nat →
  cache_lookup service (routing_cache (call_all services w)) = Some t.
Proof.
  revert i w. induction services as [|s services IH]; intros i w Hp Hi; simpl in *.
  - by rewrite cache_lookup_position, Hp.
  - destruct (get_moto_routing_table_position service s i t w Hp) as (j & Hj & Hpos);
      [lia|].
    apply (IH j); [done|lia].
Qed.

(** *** Concurrent callers and the cache *)

Lemma callers_stored_inv_step (service : string) (t : Map Handler)
    (cfg : list caller * World) (i : nat) :
  built_table service = Ok t →
  callers_stored_inv service t cfg →
  callers_stored_inv service t (sched_step load_moto_routing_table cfg i).
Proof.
  intros Ht. destruct cfg as [callers w]. intros (Hall & Hcache & Hret).
  simpl in *. unfold sched_step. simpl.
  destruct (callers !! i) as [c|] eqn:Hi; [|by repeat split; eauto].
  pose proof (Forall_lookup_1 _ _ _ _ Hall Hi) as Hc.
  destruct Hc as [-> | [-> | [-> | ->]]]; simpl.
  - destruct (cache_lookup service (routing_cache w)) as [v|] eqn:Hl; simpl.
    + pose proof (Hcache v eq_refl) as ->. split; [|split]; simpl.
      * apply Forall_insert; auto.
      * intros v. rewrite cache_lookup_remove. congruence.
      * intros j r _. apply cache_lookup_remove.
    + split; [|split]; simpl.
      * apply Forall_insert; auto.
      * by rewrite Hl.
      * intros j r Hj. apply list_lookup_insert_Some in Hj as [(_ & Hj & _)|[_ Hj]];
          [done|]. rewrite Hl. by eapply Hret.
  - rewrite load_moto_routing_table_eq, Ht. simpl. split; [|split]; simpl.
    + apply Forall_insert; auto.
    + done.
    + intros j r Hj. apply list_lookup_insert_Some in Hj as [(_ & Hj & _)|[_ Hj]];
        [done|]. by eapply Hret.
  - destruct (cache_lookup service (routing_cache w)) as [v|] eqn:Hl; simpl.
    + pose proof (Hcache v eq_refl) as ->. split; [|split]; simpl.
      * apply Forall_insert; auto.
      * by rewrite Hl.
      * intros j r _. done.
    + split; [|split]; simpl.
      * apply Forall_insert; auto.
      * intros v. rewrite cache_lookup_cons, decide_True by done. congruence.
      * intros j r _. by rewrite cache_lookup_cons, decide_True.
  - rewrite list_insert_id by done. by repeat split; eauto.
Qed.

(** X18: however the steps of concurrent callers for a service that is not
    in the cache interleave, once one of them has returned the cache holds
    the builder's table for the service. *)
Theorem concurrent_callers_store (service : string) (t : Map Handler) (N : nat)
    (schedule : list nat) (w : World) (j : nat) (r : result (Map Handler)) :
  cache_lookup service (routing_cache w) = None →
  built_table service = Ok t →
  (run_schedule load_moto_routing_table schedule
     (replicate N (Calling service), w)).1 !! j = Some (Returned r) →
  cache_lookup service
    (routing_cache (run_schedule load_moto_routing_table schedule
                      (replicate N (Calling service), w)).2) = Some t.
Proof.
  intros Hl Ht.
  assert (callers_stored_inv service t (replicate N (Calling service), w)) as Hinit.
  { split; [|split]; simpl.
    - apply Forall_replicate. auto.
    - by rewrite Hl.
    - intros j' r' Hj. apply lookup_replicate in Hj as [Hj _]. done. }
  assert (∀ cfg, callers_stored_inv service t cfg →
                 callers_stored_inv service t
                   (run_schedule load_moto_routing_table schedule cfg)) as Hrun.
  { unfold run_schedule. induction schedule as [|i schedule IH]; intros cfg Hinv;
      simpl; [done|].
    apply IH. by apply callers_stored_inv_step. }
  destruct (Hrun _ Hinit) as (_ & _ & Hret). apply Hret.
Qed.

(** *** Calls for the same service *)

Lemma dispatch_to_moto_cache (context : RequestContext) (w : World) :
  routing_cache (dispatch_to_moto context w).2
    = routing_cache (get_moto_routing_table (service_name (service context)) w).2 ∧
  builder_log (dispatch_to_moto context w).2
    = builder_log (get_moto_routing_table (service_name (service context)) w).2.
Proof.
  pose proof (get_dispatcher_world (service_name (service context))
                (path (request context)) w) as Hw.
  destruct (get_dispatcher (service_name (service context)) (path (request context)) w)
    as [[h|e] w1] eqn:Hd; simpl in Hw; subst w1.
  - rewrite (dispatch_to_moto_eq _ _ _ _ Hd). unfold try_except, call_handler.
    destruct (invoke h _ _ _ _) as [[r|e] s]; simpl; [done|]. by destruct e.
  - by rewrite (dispatch_to_moto_resolver_raises _ _ _ _ Hd).
Qed.

(** X19: a call of [call_moto] that follows another one for the same
    service, a service moto has a table for, does not build the routing
    table again. *)
Theorem call_moto_builds_once (c1 c2 : RequestContext) (f1 f2 : bool) (w : World)
    (t : Map Handler) :
  service_name (service c2) = service_name (service c1) →
  built_table (service_name (service c1)) = Ok t →
  builder_log (call_moto c2 f2 (call_moto c1 f1 w).2).2
    = builder_log (call_moto c1 f1 w).2.
Proof.
  intros Hs Ht. rewrite !call_moto_world.
  destruct (dispatch_to_moto_cache c1 w) as [Hcache Hlog].
  destruct (dispatch_to_moto_cache c2 (dispatch_to_moto c1 w).2) as [_ Hlog2].
  rewrite Hlog2, Hs.
  assert (is_Some (cache_lookup (service_name (service c1))
                     (routing_cache (dispatch_to_moto c1 w).2))) as [v Hv].
  { rewrite Hcache.
    destruct (cache_lookup (service_name (service c1)) (routing_cache w)) as [v|] eqn:Hl.
    - rewrite (get_moto_routing_table_hit _ _ _ Hl). simpl.
      rewrite cache_lookup_remove. eauto.
    - rewrite (get_moto_routing_table_miss _ _ Hl), Ht. simpl.
      rewrite cache_lookup_cons, decide_True by done. eauto. }
  by rewrite (get_moto_routing_table_hit _ _ _ Hv).
Qed.

End MotoFurther.

(** ** Properties of the report *)

(** *** Strings and [str.replace] *)

Lemma app_cons (c : ascii) (s t : string) : String c s +:+ t = String c (s +:+ t).
Proof. reflexivity. Qed.

Lemma app_empty (t : string) : "" +:+ t = t.
Proof. reflexivity. Qed.

Lemma app_empty_r (t : string) : t +:+ "" = t.
Proof.
  induction t as [|c t IH]; [reflexivity|].
  rewrite app_cons. f_equal. exact IH.
Qed.

Lemma string_app_assoc (s t u : string) : (s +:+ t) +:+ u = s +:+ (t +:+ u).
Proof.
  induction s as [|c s IH]; [reflexivity|].
  rewrite !app_cons. f_equal. exact IH.
Qed.

Lemma string_length_app (s t : string) :
  String.length (s +:+ t) = (String.length s + String.length t)%nat.
Proof.
  induction s as [|c s IH]; [reflexivity|].
  rewrite app_cons. simpl. f_equal. exact IH.
Qed.

Lemma prefix_empty (s : string) : String.prefix "" s = true.
Proof. by destruct s. Qed.

Lemma prefix_app (t r : string) : String.prefix t (t +:+ r) = true.
Proof.
  induction t as [|c t IH]; [apply prefix_empty|].
  rewrite app_cons. simpl.
  destruct (ascii_dec c c); [exact IH | congruence].
Qed.

Lemma prefix_inv (t s : string) :
  String.prefix t s = true → ∃ r, s = t +:+ r.
Proof.
  revert s; induction t as [|c t IH]; intros s H.
  - by exists s.
  - destruct s as [|d s]; [discriminate|]. simpl in H.
    destruct (ascii_dec c d) as [->|]; [|discriminate].
    destruct (IH _ H) as [r ->]. by exists r.
Qed.

Lemma prefix_cons (c d : ascii) (t s : string) :
  String.prefix (String c t) (String d s) = true → c = d ∧ String.prefix t s = true.
Proof. simpl. destruct (ascii_dec c d); [tauto | discriminate]. Qed.

Lemma occurs_prefix (t s : string) : String.prefix t s = true → occurs t s = true.
Proof. intros H. destruct s; simpl in *; rewrite H; reflexivity. Qed.

Lemma occurs_cons (t : string) (c : ascii) (s : string) :
  occurs t s = true → occurs t (String c s) = true.
Proof. intros H. change (occurs t (String c s)) with (String.prefix t (String c s) || occurs t s).
  rewrite H. apply orb_true_r. Qed.

Lemma occurs_app_r (t p r : string) : occurs t r = true → occurs t (p +:+ r) = true.
Proof.
  intros H. induction p as [|c p IH]; [exact H|].
  rewrite app_cons. by apply occurs_cons.
Qed.

Lemma clash_prefix (t u r : string) :
  clash t u = true → String.prefix t (u +:+ r) = false.
Proof.
  revert u; induction t as [|x t IH]; intros u H; [discriminate|].
  destruct u as [|y u]; [discriminate|].
  rewrite app_cons. simpl in *.
  destruct (ascii_dec x y) as [->|Hne].
  - rewrite Ascii.eqb_refl in H. by apply IH.
  - reflexivity.
Qed.

Section Replace.
Variables (o : ascii) (old' : string) (e : ascii) (new' : string).
Local Abbreviation old := (String o old').
Local Abbreviation new := (String e new').

Lemma replace_skip_app (p r : string) :
  replace_skip old new (String.length p) (p +:+ r) = replace_skip old new 0 r.
Proof.
  induction p as [|c p IH]; [reflexivity|].
  rewrite app_cons. exact IH.
Qed.

Lemma str_replace_match (r : string) :
  str_replace (old +:+ r) old new = new +:+ str_replace r old new.
Proof.
  unfold str_replace.
  rewrite app_cons. cbn [replace_skip].
  rewrite <- app_cons, prefix_app.
  replace (String.length old - 1)%nat with (String.length old') by (simpl; lia).
  by rewrite replace_skip_app.
Qed.

Lemma str_replace_nomatch (c : ascii) (s : string) :
  String.prefix old (String c s) = false →
  str_replace (String c s) old new = String c (str_replace s old new).
Proof.
  intros H. unfold str_replace. cbn [replace_skip]. by rewrite H.
Qed.

Lemma str_replace_empty : str_replace "" old new = "".
Proof. reflexivity. Qed.

(** A prefix of the result that is free of the first character of [new] is a
    prefix of the string. *)
Lemma prefix_str_replace (t s : string) :
  no_char e t = true →
  String.prefix t (str_replace s old new) = true → String.prefix t s = true.
Proof.
  revert s; induction t as [|x t IH]; intros s Hfree H; [apply prefix_empty|].
  simpl in Hfree. apply andb_true_iff in Hfree as [Hx Hfree].
  destruct s as [|c s]; [rewrite str_replace_empty in H; discriminate|].
  destruct (String.prefix old (String c s)) eqn:Hm.
  - apply prefix_inv in Hm as [r Hr]. rewrite Hr, str_replace_match in H.
    apply prefix_cons in H as [-> _].
    rewrite Ascii.eqb_refl in Hx. discriminate.
  - rewrite str_replace_nomatch in H by exact Hm.
    apply prefix_cons in H as [-> H]. simpl.
    destruct (ascii_dec c c); [|congruence]. by apply IH.
Qed.

Lemma occurs_str_replace_new (t r : string) (u : string) :
  apart t u = true → occurs t (u +:+ r) = occurs t r.
Proof.
  induction u as [|c u IH]; intros H; [reflexivity|].
  simpl in H. apply andb_true_iff in H as [Hc Hu].
  rewrite app_cons.
  change (occurs t (String c (u +:+ r)))
    with (String.prefix t (String c (u +:+ r)) || occurs t (u +:+ r)).
  rewrite <- app_cons, (clash_prefix _ _ _ Hc). simpl. by apply IH.
Qed.

(** Replacing [old] by [new] brings no occurrence of a token [t] that is
    free of the first character of [new] and apart from [new]. *)
Lemma occurs_str_replace (t s : string) :
  no_char e t = true → apart t new = true →
  occurs t (str_replace s old new) = true → occurs t s = true.
Proof.
  intros Hfree Hapart.
  remember (String.length s) as n eqn:Hn. revert s Hn.
  induction n as [n IH] using lt_wf_ind; intros s Hn H.
  destruct s as [|c s]; [exact H|].
  destruct (String.prefix old (String c s)) eqn:Hm.
  - apply prefix_inv in Hm as [r Hr]. rewrite Hr in *.
    rewrite str_replace_match, occurs_str_replace_new in H by exact Hapart.
    apply occurs_app_r. apply (IH (String.length r)); [|reflexivity|exact H].
    rewrite Hn, string_length_app. simpl. lia.
  - rewrite str_replace_nomatch in H by exact Hm.
    change (occurs t (String c (str_replace s old new)))
      with (String.prefix t (String c (str_replace s old new))
            || occurs t (str_replace s old new)) in H.
    apply orb_true_iff in H as [H|H].
    + apply occurs_prefix, prefix_str_replace; [exact Hfree|].
      by rewrite str_replace_nomatch.
    + apply occurs_cons. apply (IH (String.length s)); [|reflexivity|exact H].
      rewrite Hn. simpl. lia.
Qed.

(** After the replacement [old] occurs no more. *)
Lemma occurs_str_replace_old (s : string) :
  no_char e old = true → apart old new = true →
  occurs old (str_replace s old new) = false.
Proof.
  intros Hfree Hapart.
  remember (String.length s) as n eqn:Hn. revert s Hn.
  induction n as [n IH] using lt_wf_ind; intros s Hn.
  destruct s as [|c s]; [reflexivity|].
  destruct (String.prefix old (String c s)) eqn:Hm.
  - destruct (prefix_inv _ _ Hm) as [r Hr]. rewrite Hr in *.
    rewrite str_replace_match, occurs_str_replace_new by exact Hapart.
    apply (IH (String.length r)); [|reflexivity].
    rewrite Hn, string_length_app. simpl. lia.
  - rewrite str_replace_nomatch by exact Hm.
    change (occurs old (String c (str_replace s old new)))
      with (String.prefix old (String c (str_replace s old new))
            || occurs old (str_replace s old new)).
    rewrite (IH (String.length s)), orb_false_r; [|rewrite Hn; simpl; lia|reflexivity].
    destruct (String.prefix old (String c (str_replace s old new))) eqn:Hp; [|reflexivity].
    rewrite <- str_replace_nomatch in Hp by exact Hm.
    apply prefix_str_replace in Hp; [congruence | exact Hfree].
Qed.

Lemma prefix_first (c : ascii) (s : string) :
  Ascii.eqb o c = false → String.prefix old (String c s) = false.
Proof.
  intros H. simpl. destruct (ascii_dec o c) as [->|]; [|reflexivity].
  by rewrite Ascii.eqb_refl in H.
Qed.

(** Text without the first character of [old] stays. *)
Lemma str_replace_plain (a r : string) :
  no_char o a = true →
  str_replace (a +:+ r) old new = a +:+ str_replace r old new.
Proof.
  induction a as [|c a IH]; intros H; [reflexivity|].
  simpl in H. apply andb_true_iff in H as [Hc Ha].
  rewrite !app_cons, str_replace_nomatch, IH; [reflexivity | exact Ha |].
  apply prefix_first. by apply negb_true_iff.
Qed.

(** So does a mark that is not [old]. *)
Lemma str_replace_clash (c : ascii) (u r : string) :
  clash old (String c u) = true → no_char o u = true →
  str_replace (String c u +:+ r) old new = String c u +:+ str_replace r old new.
Proof.
  intros Hc Hu.
  rewrite app_cons, str_replace_nomatch, str_replace_plain by
    (try exact Hu; rewrite <- app_cons; by apply clash_prefix).
  reflexivity.
Qed.

End Replace.

Lemma prefix_sep (l : ascii) (old a b : string) :
  no_char l old = true →
  String.prefix old (a +:+ String l b) = String.prefix old a.
Proof.
  revert old; induction a as [|c a IH]; intros old H.
  - rewrite app_empty. destruct old as [|x old]; [reflexivity|].
    simpl in *. apply andb_true_iff in H as [Hx _].
    destruct (ascii_dec x l) as [->|]; [|reflexivity].
    by rewrite Ascii.eqb_refl in Hx.
  - rewrite app_cons. destruct old as [|x old]; [reflexivity|].
    simpl in *. apply andb_true_iff in H as [_ H].
    destruct (ascii_dec x c); [by apply IH | reflexivity].
Qed.

(** A character that [old] does not hold separates the replacements on its
    two sides. *)
Lemma str_replace_sep (l o : ascii) (old' : string) (e : ascii) (new' a b : string) :
  no_char l (String o old') = true →
  str_replace (a +:+ String l b) (String o old') (String e new') =
  str_replace a (String o old') (String e new')
    +:+ String l (str_replace b (String o old') (String e new')).
Proof.
  intros H.
  remember (String.length a) as n eqn:Hn. revert a Hn.
  induction n as [n IH] using lt_wf_ind; intros a Hn.
  destruct a as [|c a].
  - rewrite app_empty, str_replace_nomatch; [reflexivity|].
    apply prefix_first. simpl in H. apply andb_true_iff in H as [H _].
    rewrite Ascii.eqb_sym. by apply negb_true_iff.
  - destruct (String.prefix (String o old') (String c a)) eqn:Hm.
    + apply prefix_inv in Hm as [r Hr]. rewrite Hr in *.
      rewrite string_app_assoc, !str_replace_match, string_app_assoc.
      f_equal. apply (IH (String.length r)); [|reflexivity].
      rewrite Hn, string_length_app. simpl. lia.
    + rewrite app_cons, !str_replace_nomatch, app_cons.
      * f_equal. apply (IH (String.length a)); [|reflexivity].
        rewrite Hn. simpl. lia.
      * exact Hm.
      * rewrite <- app_cons, prefix_sep; [exact Hm | exact H].
Qed.

(** *** Pieces *)

Lemma flatten_app (ps qs : list piece) : flatten (ps ++ qs) = flatten ps +:+ flatten qs.
Proof.
  induction ps as [|p ps IH]; [reflexivity|].
  simpl. by rewrite IH, string_app_assoc.
Qed.

Lemma subst_well_formed (t : string) (new ps : list piece) :
  forallb well_formed new = true →
  forallb well_formed ps = true →
  forallb well_formed (flat_map (subst t new) ps) = true.
Proof.
  intros Hnew; induction ps as [|p ps IH]; intros H; [reflexivity|].
  simpl in H. apply andb_true_iff in H as [Hp Hps].
  simpl. rewrite forallb_app, (IH Hps), andb_true_r.
  destruct p as [s|m]; simpl in Hp |- *; [by rewrite Hp|].
  destruct (String.eqb m t); [exact Hnew|]. simpl. by rewrite Hp.
Qed.

Lemma flatten_code (code : string) :
  flatten [Text ESC; Mark code] = String "027" (String "[" code).
Proof. cbn [flatten piece_string]. by rewrite app_empty_r. Qed.

(** Replacing the token of the mark [t] by an escape code, on pieces. *)
Lemma str_replace_flatten (t code : string) (ps : list piece) :
  forallb (fun m => String.eqb m t || clash t m) marks = true →
  forallb well_formed ps = true →
  str_replace (flatten ps) (String "[" t) (String "027" (String "[" code)) =
  flatten (flat_map (subst t [Text ESC; Mark code]) ps).
Proof.
  intros Ht; induction ps as [|p ps IH]; intros H; [reflexivity|].
  cbn [forallb] in H. apply andb_true_iff in H as [Hp Hps].
  cbn [flat_map flatten]. rewrite flatten_app, <- (IH Hps). clear IH.
  destruct p as [s|m]; cbn [subst piece_string well_formed] in Hp |- *.
  - cbn [flatten piece_string]. rewrite string_app_assoc, app_empty.
    by apply str_replace_plain.
  - apply existsb_exists in Hp as (m' & Hin & Hm').
    apply String.eqb_eq in Hm' as <-.
    assert (Hfree : no_char "[" m = true).
    { revert Hin. clear. simpl. intros H.
      repeat (destruct H as [<- | H]; [reflexivity|]). destruct H. }
    rewrite forallb_forall in Ht. specialize (Ht m Hin).
    destruct (String.eqb m t) eqn:E.
    + apply String.eqb_eq in E as ->.
      rewrite flatten_code. apply str_replace_match.
    + cbn [orb] in Ht. cbn [flatten piece_string].
      rewrite string_app_assoc, app_empty.
      apply str_replace_clash; [|exact Hfree].
      cbn [clash]. by rewrite Ascii.eqb_refl.
Qed.

Arguments str_replace : simpl never.

(** *** [render_diff] *)

Lemma replace_tokens_eq (s : string) :
  replace_tokens s =
  str_replace (str_replace (str_replace (str_replace (str_replace (str_replace s
    "[remove]" (String "027" "[31m")) "[/remove]" (String "027" "[0m"))
    "[add]" (String "027" "[32m")) "[/add]" (String "027" "[0m"))
    "[replace]" (String "027" "[33m")) "[/replace]" (String "027" "[0m").
Proof. reflexivity. Qed.

Ltac token_gone H :=
  first
    [ rewrite occurs_str_replace_old in H by (vm_compute; reflexivity); discriminate H
    | apply occurs_str_replace in H; [token_gone H | vm_compute; reflexivity ..] ].

Lemma replace_tokens_no_markup (s token : string) :
  token ∈ replacement_map.*1 →
  occurs ("[" +:+ token +:+ "]") (replace_tokens s) = false
  ∧ occurs ("[/" +:+ token +:+ "]") (replace_tokens s) = false.
Proof.
  intros Hin. rewrite replace_tokens_eq.
  simpl in Hin. rewrite !elem_of_cons, elem_of_nil in Hin.
  destruct Hin as [-> | [-> | [-> | []]]];
    (split;
     [ match goal with |- occurs ?t ?x = false =>
         let t' := eval vm_compute in t in change t with t';
         destruct (occurs t' x) eqn:H; [token_gone H | reflexivity] end .. ]).
Qed.

Lemma replace_tokens_flatten (ps : list piece) :
  forallb well_formed ps = true →
  replace_tokens (flatten ps) = flatten (colored ps).
Proof.
  intros H. rewrite replace_tokens_eq. unfold colored.
  repeat (rewrite str_replace_flatten;
          [| vm_compute; reflexivity
           | repeat (apply subst_well_formed; [vm_compute; reflexivity|]); exact H]).
  reflexivity.
Qed.

(** The replacements act on each side of a line feed by themselves. *)
Lemma replace_tokens_sep (a b : string) :
  replace_tokens (a +:+ LF +:+ b) = replace_tokens a +:+ LF +:+ replace_tokens b.
Proof.
  rewrite !replace_tokens_eq. unfold LF. rewrite !app_cons, !app_empty.
  by rewrite !str_replace_sep by (vm_compute; reflexivity).
Qed.

Lemma replace_tokens_unlines (lines : list string) :
  replace_tokens (unlines id lines) = unlines replace_tokens lines.
Proof.
  induction lines as [|line lines IH]; [reflexivity|].
  change (unlines id (line :: lines)) with (line +:+ LF +:+ unlines id lines).
  change (unlines replace_tokens (line :: lines))
    with (replace_tokens line +:+ LF +:+ unlines replace_tokens lines).
  by rewrite replace_tokens_sep, IH.
Qed.

Ltac string_normal :=
  unfold ESC, TAB, LF; cbn [flatten piece_string];
  repeat first [ rewrite string_app_assoc | rewrite app_cons
               | rewrite app_empty | rewrite app_empty_r ].

(** The replacements on a string given by its pieces [ps]. *)
Ltac by_pieces ps :=
  match goal with
  | |- replace_tokens ?s = ?r =>
      replace s with (flatten ps) by (string_normal; reflexivity);
      rewrite replace_tokens_flatten
        by (cbn; repeat match goal with H : no_char _ _ = true |- _ => rewrite H end;
            reflexivity);
      cbn [colored flat_map subst String.eqb Ascii.eqb Bool.eqb app];
      string_normal; reflexivity
  end.

Lemma replace_tokens_plain (s : string) :
  no_char "[" s = true → replace_tokens s = s.
Proof. intros H. by_pieces [Text s]. Qed.

Lemma replace_tokens_remove (path : string) :
  no_char "[" path = true →
  replace_tokens (TAB +:+ "[remove](-)[/remove] " +:+ path) =
  TAB +:+ ESC +:+ "[31m(-)" +:+ ESC +:+ "[0m " +:+ path.
Proof.
  intros H.
  by_pieces [Text TAB; Mark "remove]"; Text "(-)"; Mark "/remove]"; Text " "; Text path].
Qed.

Lemma replace_tokens_add (path v : string) :
  no_char "[" path = true → no_char "[" v = true →
  replace_tokens (TAB +:+ "[add](+)[/add] " +:+ path +:+ " (" +:+ v +:+ ")") =
  TAB +:+ ESC +:+ "[32m(+)" +:+ ESC +:+ "[0m " +:+ path +:+ " (" +:+ v +:+ ")".
Proof.
  intros Hp Hv.
  by_pieces [Text TAB; Mark "add]"; Text "(+)"; Mark "/add]"; Text " "; Text path;
             Text " ("; Text v; Text ")"].
Qed.

Lemma replace_tokens_replace (path old new : string) :
  no_char "[" path = true → no_char "[" old = true → no_char "[" new = true →
  replace_tokens (TAB +:+ "[replace](~)[/replace] " +:+ path +:+ " ([remove]"
                  +:+ old +:+ "[/remove] → [add]" +:+ new +:+ "[/add])") =
  TAB +:+ ESC +:+ "[33m(~)" +:+ ESC +:+ "[0m " +:+ path +:+ " (" +:+ ESC +:+ "[31m"
    +:+ old +:+ ESC +:+ "[0m → " +:+ ESC +:+ "[32m" +:+ new +:+ ESC +:+ "[0m)".
Proof.
  intros Hp Ho Hn.
  by_pieces [Text TAB; Mark "replace]"; Text "(~)"; Mark "/replace]"; Text " "; Text path;
             Text " ("; Mark "remove]"; Text old; Mark "/remove]"; Text " → ";
             Mark "add]"; Text new; Mark "/add]"; Text ")"].
Qed.

Arguments replace_tokens : simpl never.

Section ReportTheory.
Context {json : Json}.

Lemma render_operations_lines (verified actual : pyval) (printstr : string)
    (patch : list (gmap string pyval)) (lines : list string) :
  Forall2 (fun p line => render_operation verified actual p = Returns line) patch lines →
  render_operations verified actual printstr patch =
  Returns (printstr +:+ unlines id lines).
Proof.
  intros H; revert printstr; induction H as [|p line patch lines Hp _ IH]; intros printstr.
  - cbn [render_operations unlines foldr]. by rewrite app_empty_r.
  - cbn [render_operations]. rewrite Hp. cbn [outcome_bind]. rewrite IH.
    change (unlines id (line :: lines)) with (line +:+ LF +:+ unlines id lines).
    by rewrite !string_app_assoc.
Qed.

Lemma render_diff_lines (result : snapshots.SnapshotMatchResult) (lines : list string) :
  Forall2 (fun p line =>
             render_operation (snapshots.a result) (snapshots.b result) p = Returns line)
          (make_patch (snapshots.b result) (snapshots.a result)) lines →
  render_diff result =
  Returns (unlines replace_tokens ((">> " +:+ snapshots.key result) :: lines)).
Proof.
  intros H. unfold render_diff.
  rewrite (render_operations_lines _ _ _ _ _ H). cbn [outcome_bind]. f_equal.
  rewrite <- replace_tokens_unlines. f_equal.
  change (unlines id ((">> " +:+ snapshots.key result) :: lines))
    with ((">> " +:+ snapshots.key result) +:+ LF +:+ unlines id lines).
  by rewrite app_empty, !string_app_assoc.
Qed.

Lemma eq_str_false (v : pyval) (s : string) : v ≠ PyStr s → eq_str v s = false.
Proof.
  intros H. destruct v; try reflexivity. simpl.
  destruct (String.eqb s0 s) eqn:E; [|reflexivity].
  apply String.eqb_eq in E. congruence.
Qed.

Lemma render_operations_app (verified actual : pyval) (printstr : string)
    (pre rest : list (gmap string pyval)) :
  render_operations verified actual printstr (pre ++ rest) =
  outcome_bind (render_operations verified actual printstr pre)
               (fun s => render_operations verified actual s rest).
Proof.
  revert printstr; induction pre as [|q pre IH]; intros printstr; [reflexivity|].
  simpl. destruct (render_operation verified actual q); [apply IH | reflexivity].
Qed.

Lemma render_operations_returns (verified actual : pyval) (printstr : string)
    (patch : list (gmap string pyval)) :
  Forall (fun q => ∃ line, render_operation verified actual q = Returns line) patch →
  ∃ s, render_operations verified actual printstr patch = Returns s.
Proof.
  intros H; revert printstr; induction H as [|q patch [line Hq] _ IH]; intros printstr.
  - by eexists.
  - simpl. rewrite Hq. apply IH.
Qed.

(** X20: when an operation of
    the patch has an [op] other than [remove], [add] and [replace], and the
    operations before it render, [render_diff] raises [ValueError] with the
    message [Unknown operation: ] followed by the operation; it returns no
    string, whatever follows in the patch. *)
Theorem render_diff_unknown_operation (result : snapshots.SnapshotMatchResult)
    (pre post : list (gmap string pyval)) (p : gmap string pyval) (op : pyval) :
  make_patch (snapshots.b result) (snapshots.a result) = pre ++ p :: post →
  Forall (fun q => ∃ line,
            render_operation (snapshots.a result) (snapshots.b result) q = Returns line) pre →
  p !! "op" = Some op →
  op ≠ PyStr "remove" → op ≠ PyStr "add" → op ≠ PyStr "replace" →
  render_diff result = Raises (ValueError ("Unknown operation: " +:+ format (PyDict p))).
Proof.
  intros Hpatch Hpre Hop Hr Ha Hp.
  unfold render_diff. rewrite Hpatch, render_operations_app.
  destruct (render_operations_returns _ _ ("" +:+ ">> " +:+ snapshots.key result +:+ LF) _ Hpre)
    as [s ->].
  simpl. unfold render_operation, subscript. rewrite Hop. simpl.
  by rewrite !eq_str_false.
Qed.

(** X21: the string [render_diff]
    returns holds none of the tokens of its markup, neither [[remove]],
    [[add]], [[replace]] nor their closing tokens, whatever the key, the
    paths and the values printed hold. *)
Theorem render_diff_no_markup (result : snapshots.SnapshotMatchResult)
    (out token : string) :
  render_diff result = Returns out →
  token ∈ replacement_map.*1 →
  occurs ("[" +:+ token +:+ "]") out = false
  ∧ occurs ("[/" +:+ token +:+ "]") out = false.
Proof.
  unfold render_diff. intros H Hin.
  destruct (render_operations _ _ _ _) as [printstr|]; [|discriminate].
  injection H as <-. by apply replace_tokens_no_markup.
Qed.

(** X22: the replacement of the tokens acts on every line
    by itself.  When each operation of the patch renders, [render_diff]
    returns the header and the lines of the operations, in the order of the
    patch, each with its own tokens replaced and followed by a line feed. *)
Theorem render_diff_line_by_line (result : snapshots.SnapshotMatchResult)
    (lines : list string) :
  Forall2 (fun p line =>
             render_operation (snapshots.a result) (snapshots.b result) p = Returns line)
          (make_patch (snapshots.b result) (snapshots.a result)) lines →
  render_diff result =
  Returns (unlines replace_tokens ((">> " +:+ snapshots.key result) :: lines)).
Proof. apply render_diff_lines. Qed.

(** X23: where [jsonpatch] finds no difference and the key
    holds no opening bracket, the output is the header alone: [>> ], the key
    and a line feed. *)
Theorem render_diff_no_difference (result : snapshots.SnapshotMatchResult) :
  make_patch (snapshots.b result) (snapshots.a result) = [] →
  no_char "[" (snapshots.key result) = true →
  render_diff result = Returns (">> " +:+ snapshots.key result +:+ LF).
Proof.
  intros Hpatch Hkey. rewrite (render_diff_lines result []) by (rewrite Hpatch; constructor).
  cbn [unlines foldr]. rewrite replace_tokens_plain by exact Hkey.
  by rewrite app_empty_r, string_app_assoc.
Qed.

(** X24: a patch of one [remove],
    with a key and a path free of opening brackets, is printed as the header
    and one line: a tab, [(-)] in red, and the path.  No pointer is
    resolved. *)
Theorem render_diff_remove (result : snapshots.SnapshotMatchResult)
    (p : gmap string pyval) (path : pyval) :
  make_patch (snapshots.b result) (snapshots.a result) = [p] →
  p !! "op" = Some (PyStr "remove") →
  p !! "path" = Some path →
  no_char "[" (snapshots.key result) = true →
  no_char "[" (format path) = true →
  render_diff result =
  Returns (">> " +:+ snapshots.key result +:+ LF
           +:+ TAB +:+ ESC +:+ "[31m(-)" +:+ ESC +:+ "[0m " +:+ format path +:+ LF).
Proof.
  intros Hpatch Hop Hpath Hkey Hfree.
  rewrite (render_diff_lines result [TAB +:+ "[remove](-)[/remove] " +:+ format path]).
  - cbn [unlines foldr].
    rewrite replace_tokens_plain, replace_tokens_remove by assumption.
    by rewrite app_empty_r, !string_app_assoc.
  - rewrite Hpatch. repeat constructor.
    unfold render_operation, subscript. by rewrite Hop, Hpath.
Qed.

(** X25: a patch of one [add] whose
    path resolves in the recorded value to [v], with key, path and value free
    of opening brackets, is printed as the header and one line: a tab, [(+)]
    in green, the path, and the value in parentheses. *)
Theorem render_diff_add (result : snapshots.SnapshotMatchResult)
    (p : gmap string pyval) (path v : pyval) :
  make_patch (snapshots.b result) (snapshots.a result) = [p] →
  p !! "op" = Some (PyStr "add") →
  p !! "path" = Some path →
  resolve_pointer (snapshots.a result) path = Returns v →
  no_char "[" (snapshots.key result) = true →
  no_char "[" (format path) = true →
  no_char "[" (format v) = true →
  render_diff result =
  Returns (">> " +:+ snapshots.key result +:+ LF
           +:+ TAB +:+ ESC +:+ "[32m(+)" +:+ ESC +:+ "[0m " +:+ format path
           +:+ " (" +:+ format v +:+ ")" +:+ LF).
Proof.
  intros Hpatch Hop Hpath Hv Hkey Hfree Hfreev.
  rewrite (render_diff_lines result
             [TAB +:+ "[add](+)[/add] " +:+ format path +:+ " (" +:+ format v +:+ ")"]).
  - cbn [unlines foldr].
    rewrite replace_tokens_plain, replace_tokens_add by assumption.
    by rewrite app_empty_r, !string_app_assoc.
  - rewrite Hpatch. repeat constructor.
    unfold render_operation, subscript. rewrite Hop, Hpath. cbn. by rewrite Hv.
Qed.

(** X26: a patch of one [replace]
    whose path resolves to [old] in the actual and to [new] in the recorded
    value, all free of opening brackets, is printed as the header and one
    line: a tab, [(~)] in yellow, the path, and in parentheses the actual
    value in red, an arrow, and the recorded value in green. *)
Theorem render_diff_replace (result : snapshots.SnapshotMatchResult)
    (p : gmap string pyval) (path old new : pyval) :
  make_patch (snapshots.b result) (snapshots.a result) = [p] →
  p !! "op" = Some (PyStr "replace") →
  p !! "path" = Some path →
  resolve_pointer (snapshots.b result) path = Returns old →
  resolve_pointer (snapshots.a result) path = Returns new →
  no_char "[" (snapshots.key result) = true →
  no_char "[" (format path) = true →
  no_char "[" (format old) = true →
  no_char "[" (format new) = true →
  render_diff result =
  Returns (">> " +:+ snapshots.key result +:+ LF
           +:+ TAB +:+ ESC +:+ "[33m(~)" +:+ ESC +:+ "[0m " +:+ format path
           +:+ " (" +:+ ESC +:+ "[31m" +:+ format old +:+ ESC +:+ "[0m → "
           +:+ ESC +:+ "[32m" +:+ format new +:+ ESC +:+ "[0m)" +:+ LF).
Proof.
  intros Hpatch Hop Hpath Hold Hnew Hkey Hfree Hfreeo Hfreen.
  rewrite (render_diff_lines result
             [TAB +:+ "[replace](~)[/replace] " +:+ format path +:+ " ([remove]"
              +:+ format old +:+ "[/remove] → [add]" +:+ format new +:+ "[/add])"]).
  - cbn [unlines foldr].
    rewrite replace_tokens_plain, replace_tokens_replace by assumption.
    by rewrite app_empty_r, !string_app_assoc.
  - rewrite Hpatch. repeat constructor.
    unfold render_operation, subscript. rewrite Hop, Hpath. cbn. by rewrite Hold, Hnew.
Qed.

End ReportTheory.

(** ** The properties on the instance *)

Section Examples.
Local Existing Instance demo.

(** "sqs" has a backend under the default account and "us-east-1": its
    registrations make the table. *)
Lemma load_moto_routing_table_selects_sqs :
  ∃ table,
    load_moto_routing_table "sqs" demo_world = (Ok table, logged "sqs" demo_world) ∧
    _rules table = [mkRule "/queues" "sqs_dispatch" false].
Proof.
  destruct (@load_moto_routing_table_selects demo "sqs"
              (BackendDict {[ "000000000000" :=
                 {[ "us-east-1" := [("/queues", "sqs_dispatch")];
                    "global" := [("/global", "sqs_global")] ]} ]})
              [("/queues", "sqs_dispatch")] demo_world)
    as (table & Hload & Hrules & _); [reflexivity|reflexivity|].
  exists table. split; [exact Hload|exact Hrules].
Defined.

(** "sqs" has a single route entry: the resolver returns its handler for a
    path the pattern does not match. *)
Lemma get_dispatcher_single_rule_sqs :
  @get_dispatcher demo "sqs" "%%malformed" demo_world
    = (Ok "sqs_dispatch", resolved "sqs" sqs_table) ∧
  @rule_match demo (mkRule "/queues" "sqs_dispatch" false) "%%malformed" = false.
Proof.
  split.
  - apply (@get_dispatcher_single_rule demo "sqs" "%%malformed" demo_world
             (resolved "sqs" sqs_table) sqs_table (mkRule "/queues" "sqs_dispatch" false)).
    + vm_compute. reflexivity.
    + reflexivity.
  - vm_compute. reflexivity.
Defined.

(** "lambda" has two route entries that both match "/functions"; the one
    registered second has a variable and so the greater key, and the handler
    of the first is returned. *)
Lemma get_dispatcher_first_match_lambda :
  @get_dispatcher demo "lambda" "/functions" demo_world
    = (Ok "list_functions", resolved "lambda" lambda_table) ∧
  @rule_match demo (mkRule "/<resource>" "get_resource" false) "/functions" = true.
Proof.
  split.
  - apply (@get_dispatcher_first_match demo "lambda" "/functions" demo_world
             (resolved "lambda" lambda_table) lambda_table 0%nat
             (mkRule "/functions" "list_functions" false)).
    + vm_compute. reflexivity.
    + simpl. lia.
    + reflexivity.
    + vm_compute. reflexivity.
    + intros j r' Hj. lia.
    + intros j r' Hj Hlookup Hmatch.
      destruct j as [|[|j]]; [lia| |discriminate Hlookup].
      injection Hlookup as <-. unfold key_lt. compute_done.
  - vm_compute. reflexivity.
Defined.

(** C4, as stated, fails: "route53" registers "/<zone_id>" first and
    "/hostedzone" second; the path "/hostedzone" matches the first pattern,
    no pattern is registered before it, and the resolver returns the handler
    of the second. *)
Lemma get_dispatcher_not_first_registered :
  @get_moto_routing_table demo "route53" demo_world
    = (Ok route53_table, resolved "route53" route53_table) ∧
  (2 ≤ length (_rules route53_table))%nat ∧
  _rules route53_table !! 0%nat = Some (mkRule "/<zone_id>" "get_zone" false) ∧
  @rule_match demo (mkRule "/<zone_id>" "get_zone" false) "/hostedzone" = true ∧
  @get_dispatcher demo "route53" "/hostedzone" demo_world
    = (Ok "list_zones", resolved "route53" route53_table) ∧
  "list_zones" ≠ endpoint (mkRule "/<zone_id>" "get_zone" false).
Proof.
  split; [vm_compute; reflexivity|]. split; [simpl; lia|]. split; [reflexivity|].
  split; [vm_compute; reflexivity|]. split; [vm_compute; reflexivity|]. discriminate.
Qed.

(** The handler "get_zone" raises [RESTError]; the executor raises the
    [CommonServiceException] with its fields. *)
Lemma dispatch_to_moto_translates_get_zone :
  @dispatch_to_moto demo (demo_context "route53" "/Z123") demo_world
    = (Raise (CommonServiceException (PyStr "NoSuchHostedZone")
                (PyStr "No hosted zone found") 404 false),
       called "get_zone" (@dispatched_request demo (demo_context "route53" "/Z123")) 1%nat
              (resolved "route53" route53_table)).
Proof.
  apply (proj1 (@dispatch_to_moto_translates demo (demo_context "route53" "/Z123")
                  demo_world (resolved "route53" route53_table) "get_zone"
                  "NoSuchHostedZone" "No hosted zone found" 404 1%nat
                  ltac:(vm_compute; reflexivity) ltac:(vm_compute; reflexivity))).
Defined.

(** C3, as stated, fails: a dispatch has outcomes other than a raw result and
    a [CommonServiceException].  The handler "crash" is resolved and invoked
    and raises an exception of its own, which the executor lets pass; and no
    rule of "route53" matches "/a/b", so the dispatch ends in the resolver's
    [NotFound]. *)
Lemma dispatch_to_moto_third_outcome :
  (@get_dispatcher faulty "ec2" "/crash" demo_world).1 = Ok "crash" ∧
  (@dispatch_to_moto faulty (demo_context "ec2" "/crash") demo_world).1
    = Raise (Exception "RuntimeError") ∧
  (@dispatch_to_moto demo (demo_context "route53" "/a/b") demo_world).1 = Raise NotFound.
Proof. repeat split; vm_compute; reflexivity. Qed.

(** "list_zones" answers 400 with an "Error" mapping of code "Foo" and
    message "bar". *)
Lemma call_moto_error_status_list_zones :
  @call_moto demo (demo_context "route53" "/hostedzone") false demo_world
    = (Raise (CommonServiceException (PyStr "Foo") (PyStr "bar") 400 false),
       dispatched "route53" route53_table "list_zones"
         (@dispatched_request demo (demo_context "route53" "/hostedzone"))).
Proof.
  pose proof (@call_moto_error_status demo (demo_context "route53" "/hostedzone") false
                demo_world
                (dispatched "route53" route53_table "list_zones"
                   (@dispatched_request demo (demo_context "route53" "/hostedzone")))
                400 (∅ : gmap string string) "error"
                {[ "Error" := PyDict {[ "Code" := PyStr "Foo"; "Message" := PyStr "bar" ]} ]}
                {[ "Code" := PyStr "Foo"; "Message" := PyStr "bar" ]}
                ltac:(vm_compute; reflexivity) ltac:(lia)
                ltac:(vm_compute; reflexivity) ltac:(vm_compute; reflexivity)) as H.
  vm_compute in H. vm_compute. exact H.
Defined.

(** C2, as stated, fails: "bare" answers 500 and the parsed body has no
    "Error" key; [call_moto] raises [KeyError] and no
    [CommonServiceException]. *)
Lemma call_moto_error_status_without_mapping :
  ∃ (status : Z) (hdrs : gmap string string) (content : string) (w1 : World_of string nat),
    @dispatch_to_moto demo (demo_context "legacy" "/legacy") demo_world
      = (Ok (status, hdrs, content), w1) ∧
    status >= 301 ∧
    @call_moto demo (demo_context "legacy" "/legacy") false demo_world
      = (Raise (KeyError "Error"), w1).
Proof.
  exists 500, (∅ : gmap string string), "empty",
    (dispatched "legacy" legacy_table "bare"
       (@dispatched_request demo (demo_context "legacy" "/legacy"))).
  split; [vm_compute; reflexivity|]. split; [lia|]. vm_compute. reflexivity.
Qed.

(** The same call, by the theorem of C10. *)
Lemma call_moto_error_key_missing_legacy :
  @call_moto demo (demo_context "legacy" "/legacy") true demo_world
    = (Raise (KeyError "Error"),
       dispatched "legacy" legacy_table "bare"
         (@dispatched_request demo (demo_context "legacy" "/legacy"))).
Proof.
  apply (proj1 (@call_moto_error_key_missing demo (demo_context "legacy" "/legacy") true
                  demo_world
                  (dispatched "legacy" legacy_table "bare"
                     (@dispatched_request demo (demo_context "legacy" "/legacy")))
                  500 (∅ : gmap string string) "empty" (∅ : gmap string pyval)
                  ltac:(vm_compute; reflexivity) ltac:(lia)
                  ltac:(vm_compute; reflexivity) ltac:(reflexivity))).
Defined.

(** "sqs_dispatch" answers 200; the parsed body has "QueueUrls" and
    "ResponseMetadata". *)
Lemma call_moto_success_sqs :
  @call_moto demo (demo_context "sqs" "/queues") false demo_world
    = (Ok {[ "QueueUrls" := PyList [] ]},
       dispatched "sqs" sqs_table "sqs_dispatch"
         (@dispatched_request demo (demo_context "sqs" "/queues"))) ∧
  @call_moto demo (demo_context "sqs" "/queues") true demo_world
    = (Ok {[ "QueueUrls" := PyList [];
             "ResponseMetadata" := PyDict {[ "HTTPStatusCode" := PyInt 200 ]} ]},
       dispatched "sqs" sqs_table "sqs_dispatch"
         (@dispatched_request demo (demo_context "sqs" "/queues"))).
Proof.
  pose proof (@call_moto_success demo (demo_context "sqs" "/queues") demo_world
                (dispatched "sqs" sqs_table "sqs_dispatch"
                   (@dispatched_request demo (demo_context "sqs" "/queues")))
                (∅ : gmap string string) "ok"
                {[ "QueueUrls" := PyList [];
                   "ResponseMetadata" := PyDict {[ "HTTPStatusCode" := PyInt 200 ]} ]}
                ltac:(vm_compute; reflexivity) ltac:(vm_compute; reflexivity))
    as (Hfalse & Htrue & _).
  split; [|exact Htrue].
  rewrite Hfalse. vm_compute. reflexivity.
Defined.

(** A call with new parameters for "sqs": the handler receives the headers
    of the new request, then those of the original one, then the account
    header. *)
Lemma call_moto_with_request_headers_sqs :
  ∃ (h : string) (req : HttpRequest),
    handler_log (@call_moto_with_request demo (demo_context "sqs" "/queues")
                   {[ "QueueNamePrefix" := PyStr "a" ]} demo_world).2
      = [(h, req)] ∧
    ("Host", "localhost:4566") ∈ headers req ∧
    ("Authorization", "AWS4-HMAC-SHA256 Credential=test") ∈ headers req ∧
    ("X-Amz-Target", "ListQueues") ∈ headers req.
Proof.
  destruct (@call_moto_with_request_headers demo (demo_context "sqs" "/queues")
              {[ "QueueNamePrefix" := PyStr "a" ]} demo_world
              (mkRequestContext (mkServiceModel "sqs") (mkOperationModel "ListQueues")
                 "us-east-1"
                 (mkHttpRequest "POST" "/queues" "http://localhost:4566/queues"
                    [("Content-Type", "application/x-amz-json-1.0");
                     ("X-Amz-Target", "ListQueues")] ""))
              ltac:(reflexivity))
    as [_ [Hnone|(h & req & Hlog & _ & Horig & Hnew)]].
  - vm_compute in Hnone. discriminate Hnone.
  - exists h, req. split; [exact Hlog|]. split; [|split].
    + apply Horig. vm_compute. apply list_elem_of_here.
    + apply Horig. vm_compute. apply list_elem_of_further, list_elem_of_here.
    + apply Hnew. vm_compute. apply list_elem_of_further, list_elem_of_here.
Defined.

(** The provider does not implement "ListQueues": the wrapped method
    answers with moto's raw response; it implements "CreateQueue": the
    wrapped method answers as the provider does. *)
Lemma MotoFallbackDispatcher_transparent_sqs :
  ∃ wrapped : @ServiceRequestHandler demo,
    @MotoFallbackDispatcher demo demo_provider !! "ListQueues" = Some wrapped ∧
    wrapped (demo_context "sqs" "/queues") ∅ demo_world
      = (Ok (RawResponse (mkResponse "ok" 200 ∅)),
         dispatched "sqs" sqs_table "sqs_dispatch"
           (@dispatched_request demo (demo_context "sqs" "/queues"))).
Proof.
  destruct (@MotoFallbackDispatcher_transparent demo demo_provider "ListQueues"
              (fun _ _ => @raise demo _ NotImplementedError)
              (demo_context "sqs" "/queues") ∅ demo_world ltac:(reflexivity))
    as (wrapped & Hwrapped & Hfallback & _).
  exists wrapped. split; [exact Hwrapped|].
  destruct (Hfallback demo_world ltac:(reflexivity)) as [_ Hraw].
  apply (Hraw (200, (∅ : gmap string string), "ok")).
  vm_compute. reflexivity.
Defined.

(** "sqs" on the empty cache: the first call builds, the second does not;
    five calls for three services build three tables; two concurrent callers
    build at most twice. *)
Lemma get_moto_routing_table_memoizes_sqs :
  ((@get_moto_routing_table demo "sqs" demo_world).1 = Ok sqs_table ∧
   builder_log (@get_moto_routing_table demo "sqs" demo_world).2 = ["sqs"] ∧
   builder_log (@get_moto_routing_table demo "sqs"
                  (@get_moto_routing_table demo "sqs" demo_world).2).2 = ["sqs"]) ∧
  NoDup (builder_log (@call_all demo ["sqs"; "route53"; "sqs"; "lambda"; "route53"]
                        demo_world)) ∧
  ∃ k : nat,
    builder_log (@run_schedule demo load_moto_routing_table [0; 1; 0; 1; 0; 1]%nat
                   ([Calling "sqs"; Calling "sqs"], demo_world)).2
      = replicate k "sqs" ∧
    (k ≤ 2)%nat.
Proof.
  destruct (@get_moto_routing_table_memoizes demo "sqs" sqs_table demo_world
              ltac:(vm_compute; reflexivity))
    as (_ & Hmiss & Hseq & Hconc).
  split; [|split].
  - destruct (Hmiss ltac:(reflexivity)) as (H1 & H2 & _ & _ & H3).
    split; [exact H1|]. split; [exact H2|exact H3].
  - apply Hseq; [reflexivity|reflexivity| |vm_compute; lia].
    intros s Hs. repeat (apply elem_of_cons in Hs as [->|Hs]);
      [..|by apply elem_of_nil in Hs]; eexists; vm_compute; reflexivity.
  - destruct (Hconc 2%nat [0; 1; 0; 1; 0; 1]%nat ltac:(reflexivity))
      as (_ & k & Hlog & Hk & _).
    exists k. split; [|exact Hk]. rewrite app_nil_r in Hlog. exact Hlog.
Defined.

(** C6, as stated, fails.  Calls for 129 services one after the other and
    then for the first of them again build its table a second time; and two
    callers that both look "sqs" up before either has stored it each run
    the builder. *)
Lemma get_moto_routing_table_rebuilds :
  NoDup demo_services ∧
  Forall (fun s => is_Some (demo_get_backend s)) demo_services ∧
  filter (fun s => s = "svc0")
         (builder_log (@call_all demo (demo_services ++ ["svc0"]) demo_world))
    = ["svc0"; "svc0"] ∧
  (@run_schedule demo load_moto_routing_table [0; 1; 0; 1; 0; 1]%nat
     ([Calling "sqs"; Calling "sqs"], demo_world)).1
    = [Returned (Ok sqs_table); Returned (Ok sqs_table)] ∧
  builder_log (@run_schedule demo load_moto_routing_table [0; 1; 0; 1; 0; 1]%nat
                 ([Calling "sqs"; Calling "sqs"], demo_world)).2
    = ["sqs"; "sqs"].
Proof.
  split; [|split; [|split; [|split]]].
  - apply (bool_decide_unpack _). vm_compute. exact I.
  - apply (bool_decide_unpack _). vm_compute. exact I.
  - vm_compute. reflexivity.
  - vm_compute. reflexivity.
  - vm_compute. reflexivity.
Qed.

End Examples.

(** ** The further properties on the instances *)

Section FurtherExamples.

(** "cloudfront" is not a service of the instance: three calls, three runs
    of the builder, nothing stored. *)
Lemma get_moto_routing_table_unknown_service_cloudfront :
  routing_cache (@call_all demo (replicate 3 "cloudfront") demo_world) = [] ∧
  builder_log (@call_all demo (replicate 3 "cloudfront") demo_world)
    = ["cloudfront"; "cloudfront"; "cloudfront"] ∧
  (@get_moto_routing_table demo "cloudfront"
     (@call_all demo (replicate 3 "cloudfront") demo_world)).1
    = Raise (KeyError "cloudfront").
Proof.
  exact (@get_moto_routing_table_unknown_service demo "cloudfront" demo_world 3
           ltac:(reflexivity) ltac:(reflexivity)).
Defined.

(** "kinesis" has its default account, but no "us-east-1" and no "global". *)
Lemma load_moto_routing_table_no_instance_kinesis :
  @load_moto_routing_table faulty "kinesis" demo_world
    = (Raise (KeyError "global"), @mkWorld string nat 0%nat [] ["kinesis"] []).
Proof.
  pose proof (@load_moto_routing_table_no_instance faulty "kinesis"
                (BackendDict {[ "000000000000" :=
                   {[ "eu-west-1" := [("/streams", "list_streams")] ]} ]})
                demo_world ltac:(reflexivity) ltac:(reflexivity)) as H.
  rewrite H. vm_compute. reflexivity.
Defined.

(** No pattern of "route53" matches "/a/b". *)
Lemma get_dispatcher_no_match_route53 :
  @get_dispatcher demo "route53" "/a/b" demo_world
    = (Raise NotFound, resolved "route53" route53_table).
Proof.
  apply (@get_dispatcher_no_match demo "route53" "/a/b" demo_world
           (resolved "route53" route53_table) route53_table).
  - vm_compute. reflexivity.
  - simpl. lia.
  - intros r Hr. repeat (apply elem_of_cons in Hr as [->|Hr]);
      [..|by apply elem_of_nil in Hr]; vm_compute; reflexivity.
Defined.

(** What the resolver returns for "route53" and "/hostedzone" is registered
    with a pattern that matches. *)
Lemma get_dispatcher_registered_route53 :
  ∃ (t : Map string) (r : Rule string),
    @get_moto_routing_table demo "route53" demo_world
      = (Ok t, resolved "route53" route53_table) ∧
    r ∈ _rules t ∧ endpoint r = "list_zones" ∧
    (length (_rules t) ≠ 1%nat → @rule_match demo r "/hostedzone" = true).
Proof.
  exact (@get_dispatcher_registered demo "route53" "/hostedzone" demo_world
           (resolved "route53" route53_table) "list_zones"
           ltac:(vm_compute; reflexivity)).
Defined.

(** "/Z123" matches "/<zone_id>" only. *)
Lemma get_dispatcher_unique_match_route53 :
  @get_dispatcher demo "route53" "/Z123" demo_world
    = (Ok "get_zone", resolved "route53" route53_table).
Proof.
  apply (@get_dispatcher_unique_match demo "route53" "/Z123" demo_world
           (resolved "route53" route53_table) route53_table 0%nat
           (mkRule "/<zone_id>" "get_zone" false)).
  - vm_compute. reflexivity.
  - simpl. lia.
  - reflexivity.
  - vm_compute. reflexivity.
  - intros j r' Hj Hlookup.
    destruct j as [|[|j]]; [done| |discriminate Hlookup].
    injection Hlookup as <-. vm_compute. reflexivity.
Defined.

(** One dispatch for "sqs": one call of its handler, with the account
    header after the two headers of the request; a path of "route53" that
    nothing matches: no call. *)
Lemma dispatch_to_moto_one_call_sqs :
  handler_log (@dispatch_to_moto demo (demo_context "sqs" "/queues") demo_world).2
    = [("sqs_dispatch",
        mkHttpRequest "GET" "/queues" "http://localhost:4566/queues"
          [("Host", "localhost:4566");
           ("Authorization", "AWS4-HMAC-SHA256 Credential=test");
           ("x-moto-account-id", "000000000000")] "")] ∧
  @dispatch_to_moto demo (demo_context "route53" "/a/b") demo_world
    = (Raise NotFound, resolved "route53" route53_table).
Proof.
  split.
  - destruct (proj1 (@dispatch_to_moto_one_call demo (demo_context "sqs" "/queues")
                       demo_world)
                "sqs_dispatch" (resolved "sqs" sqs_table) ltac:(vm_compute; reflexivity))
      as (Hlog & _ & _).
    rewrite Hlog. vm_compute. reflexivity.
  - apply (proj2 (@dispatch_to_moto_one_call demo (demo_context "route53" "/a/b")
                    demo_world)
             NotFound (resolved "route53" route53_table) ltac:(vm_compute; reflexivity)).
Defined.

(** The handler "crash" raises an exception of its own. *)
Lemma dispatch_to_moto_other_exception_crash :
  @dispatch_to_moto faulty (demo_context "ec2" "/crash") demo_world
    = (Raise (Exception "RuntimeError"),
       @called faulty "crash" (@dispatched_request faulty (demo_context "ec2" "/crash"))
         1%nat (resolved "ec2" ec2_table)).
Proof.
  apply (@dispatch_to_moto_other_exception faulty (demo_context "ec2" "/crash") demo_world
           (resolved "ec2" ec2_table) "crash" (Exception "RuntimeError") 1%nat).
  - vm_compute. reflexivity.
  - vm_compute. reflexivity.
  - intros error_type message code. discriminate.
Defined.

(** Status 300 is a success. *)
Lemma call_moto_success_below_301_choices :
  (@call_moto faulty (demo_context "ec2" "/choices") false demo_world).1
    = Ok {[ "Choices" := PyList [PyStr "a"; PyStr "b"] ]}.
Proof.
  pose proof (@call_moto_success_below_301 faulty (demo_context "ec2" "/choices") false
                demo_world
                (@called faulty "choices"
                   (@dispatched_request faulty (demo_context "ec2" "/choices")) 1%nat
                   (resolved "ec2" ec2_table))
                300 (∅ : gmap string string) "choices"
                {[ "Choices" := PyList [PyStr "a"; PyStr "b"];
                   "ResponseMetadata" := PyDict {[ "HTTPStatusCode" := PyInt 300 ]} ]}
                ltac:(vm_compute; reflexivity) ltac:(lia) ltac:(vm_compute; reflexivity))
    as H.
  rewrite H. vm_compute. reflexivity.
Defined.

(** Status 503 with an "Error" that is a string. *)
Lemma call_moto_error_not_mapping_busy :
  (@call_moto faulty (demo_context "ec2" "/busy") false demo_world).1
    = Raise (AttributeError "get").
Proof.
  pose proof (@call_moto_error_not_mapping faulty (demo_context "ec2" "/busy") false
                demo_world
                (@called faulty "busy"
                   (@dispatched_request faulty (demo_context "ec2" "/busy")) 1%nat
                   (resolved "ec2" ec2_table))
                503 (∅ : gmap string string) "busy"
                {[ "Error" := PyStr "Service Unavailable" ]} (PyStr "Service Unavailable")
                ltac:(vm_compute; reflexivity) ltac:(lia) ltac:(vm_compute; reflexivity)
                ltac:(reflexivity) ltac:(intros d; discriminate))
    as H.
  by rewrite H.
Defined.

(** Status 500 from "bare": no response. *)
Lemma call_moto_error_never_returns_legacy :
  ∃ e, @call_moto demo (demo_context "legacy" "/legacy") true demo_world
       = (Raise e,
          dispatched "legacy" legacy_table "bare"
            (@dispatched_request demo (demo_context "legacy" "/legacy"))).
Proof.
  exact (@call_moto_error_never_returns demo (demo_context "legacy" "/legacy") true
           demo_world
           (dispatched "legacy" legacy_table "bare"
              (@dispatched_request demo (demo_context "legacy" "/legacy")))
           500 (∅ : gmap string string) "empty"
           ltac:(vm_compute; reflexivity) ltac:(lia)).
Defined.

(** The new request of the instance has two headers; the handler receives
    them, then the two of the original request, then the account header.  In
    the second instance no context can be made. *)
Lemma call_moto_with_request_dispatch_sqs :
  handler_log (@call_moto_with_request demo (demo_context "sqs" "/other")
                 {[ "QueueNamePrefix" := PyStr "a" ]} demo_world).2
    = [("sqs_dispatch",
        mkHttpRequest "POST" "/queues" "http://localhost:4566/queues"
          [("Content-Type", "application/x-amz-json-1.0");
           ("X-Amz-Target", "ListQueues");
           ("Host", "localhost:4566");
           ("Authorization", "AWS4-HMAC-SHA256 Credential=test");
           ("x-moto-account-id", "000000000000")] "")] ∧
  @call_moto_with_request faulty (demo_context "ec2" "/busy") ∅ demo_world
    = (Raise (Exception "OperationNotFoundParserError"), demo_world).
Proof.
  split.
  - pose proof (proj1 (@call_moto_with_request_dispatch demo (demo_context "sqs" "/other")
                         {[ "QueueNamePrefix" := PyStr "a" ]} demo_world)
                  (mkRequestContext (mkServiceModel "sqs") (mkOperationModel "ListQueues")
                     "us-east-1"
                     (mkHttpRequest "POST" "/queues" "http://localhost:4566/queues"
                        [("Content-Type", "application/x-amz-json-1.0");
                         ("X-Amz-Target", "ListQueues")] ""))
                  "sqs_dispatch" (resolved "sqs" sqs_table)
                  ltac:(reflexivity) ltac:(vm_compute; reflexivity)) as H.
    rewrite H. vm_compute. reflexivity.
  - apply (proj2 (@call_moto_with_request_dispatch faulty (demo_context "ec2" "/busy")
                    ∅ demo_world)
             (Exception "OperationNotFoundParserError") ltac:(reflexivity)).
Defined.

(** Calls for 129 services, twice over, from the empty cache. *)
Lemma routing_cache_bounded_services :
  (length (routing_cache (@call_all demo (demo_services ++ demo_services) demo_world))
     ≤ lru_maxsize)%nat ∧
  NoDup (routing_cache (@call_all demo (demo_services ++ demo_services) demo_world)).*1.
Proof.
  apply (@routing_cache_bounded demo (demo_services ++ demo_services) demo_world).
  - simpl. unfold lru_maxsize. lia.
  - constructor.
Defined.

(** After calls for 129 services the first one is no longer stored, and a
    call for it still ends with its table. *)
Lemma routing_cache_transparent_svc0 :
  (@get_moto_routing_table demo "svc0" (@call_all demo demo_services demo_world)).1
    = @built_table demo "svc0" ∧
  @built_table demo "svc0"
    = Ok (mkMap [mkRule "/svc0" "svc0" false] ("regex" :: DEFAULT_CONVERTERS)).
Proof.
  split.
  - apply (@routing_cache_transparent demo demo_services "svc0" demo_world). reflexivity.
  - vm_compute. reflexivity.
Defined.

(** The table of "sqs", just stored, outlasts calls for 127 other services. *)
Lemma routing_cache_retention_sqs :
  cache_lookup "sqs"
    (routing_cache (@call_all demo (take 127 demo_services) (resolved "sqs" sqs_table)))
    = Some sqs_table.
Proof.
  apply (@routing_cache_retention demo (take 127 demo_services) "sqs" 0%nat sqs_table
           (resolved "sqs" sqs_table)).
  - reflexivity.
  - vm_compute. lia.
Defined.

(** Two callers for "sqs"; the first has returned, the second has not looked
    the key up yet. *)
Lemma concurrent_callers_store_sqs :
  cache_lookup "sqs"
    (routing_cache (@run_schedule demo load_moto_routing_table [0; 0; 0]%nat
                      (replicate 2 (Calling "sqs"), demo_world)).2)
    = Some sqs_table.
Proof.
  apply (@concurrent_callers_store demo "sqs" sqs_table 2 [0; 0; 0]%nat demo_world
           0%nat (Ok sqs_table)).
  - reflexivity.
  - vm_compute. reflexivity.
  - vm_compute. reflexivity.
Defined.

(** Two calls for "sqs": the table is built for the first. *)
Lemma call_moto_builds_once_sqs :
  builder_log (@call_moto demo (demo_context "sqs" "/other") true
                 (@call_moto demo (demo_context "sqs" "/queues") false demo_world).2).2
    = builder_log (@call_moto demo (demo_context "sqs" "/queues") false demo_world).2 ∧
  builder_log (@call_moto demo (demo_context "sqs" "/queues") false demo_world).2
    = ["sqs"].
Proof.
  split.
  - apply (@call_moto_builds_once demo (demo_context "sqs" "/queues")
             (demo_context "sqs" "/other") false true demo_world sqs_table).
    + reflexivity.
    + vm_compute. reflexivity.
  - vm_compute. reflexivity.
Defined.

End FurtherExamples.

(** ** The properties of the report on the instances *)

Section ReportExamples.

(** A key renamed from [a] to [b]: the [move] is not rendered. *)
Lemma render_diff_unknown_operation_move :
  @render_diff renaming (differing {[ "b" := PyInt 1 ]} {[ "a" := PyInt 1 ]}) =
  Raises (ValueError "Unknown operation: {'op': 'move', 'from': '/a', 'path': '/b'}").
Proof.
  apply (@render_diff_unknown_operation renaming _ [] []
           {[ "op" := PyStr "move"; "from" := PyStr "/a"; "path" := PyStr "/b" ]}
           (PyStr "move")).
  - reflexivity.
  - constructor.
  - vm_compute. reflexivity.
  - discriminate.
  - discriminate.
  - discriminate.
Defined.

(** The token in the key is replaced as well. *)
Lemma render_diff_no_markup_drifted :
  @render_diff flat drifted = Returns drifted_output
  ∧ occurs "[add]" drifted_output = false ∧ occurs "[/add]" drifted_output = false.
Proof.
  assert (E : @render_diff flat drifted = Returns drifted_output)
    by (vm_compute; reflexivity).
  split; [exact E|].
  apply (@render_diff_no_markup flat drifted drifted_output "add" E).
  apply list_elem_of_further, list_elem_of_here.
Defined.

Lemma render_diff_line_by_line_drifted :
  @render_diff flat drifted =
  Returns (unlines replace_tokens
             [ ">> sqs.[add]";
               TAB +:+ "[remove](-)[/remove] /z";
               TAB +:+ "[add](+)[/add] /x (1)";
               TAB +:+ "[replace](~)[/replace] /y ([remove]3[/remove] → [add]2[/add])" ]).
Proof.
  apply (@render_diff_line_by_line flat drifted
           [ TAB +:+ "[remove](-)[/remove] /z";
             TAB +:+ "[add](+)[/add] /x (1)";
             TAB +:+ "[replace](~)[/replace] /y ([remove]3[/remove] → [add]2[/add])" ]).
  repeat constructor.
Defined.

Lemma render_diff_no_difference_same :
  @render_diff flat (differing {[ "x" := PyInt 1 ]} {[ "x" := PyInt 1 ]}) =
  Returns (">> sqs.queue" +:+ LF).
Proof.
  apply (@render_diff_no_difference flat
           (differing {[ "x" := PyInt 1 ]} {[ "x" := PyInt 1 ]}));
    vm_compute; reflexivity.
Defined.

Lemma render_diff_remove_z :
  @render_diff flat (differing ∅ {[ "z" := PyInt 4 ]}) =
  Returns (">> sqs.queue" +:+ LF
           +:+ TAB +:+ ESC +:+ "[31m(-)" +:+ ESC +:+ "[0m /z" +:+ LF).
Proof.
  apply (@render_diff_remove flat (differing ∅ {[ "z" := PyInt 4 ]})
           (patch_operation "remove" "/z") (PyStr "/z"));
    vm_compute; reflexivity.
Defined.

Lemma render_diff_add_x :
  @render_diff flat (differing {[ "x" := PyInt 1 ]} ∅) =
  Returns (">> sqs.queue" +:+ LF
           +:+ TAB +:+ ESC +:+ "[32m(+)" +:+ ESC +:+ "[0m /x (1)" +:+ LF).
Proof.
  apply (@render_diff_add flat (differing {[ "x" := PyInt 1 ]} ∅)
           (patch_operation "add" "/x") (PyStr "/x") (PyInt 1));
    vm_compute; reflexivity.
Defined.

Lemma render_diff_replace_y :
  @render_diff flat (differing {[ "y" := PyInt 2 ]} {[ "y" := PyInt 3 ]}) =
  Returns (">> sqs.queue" +:+ LF
           +:+ TAB +:+ ESC +:+ "[33m(~)" +:+ ESC +:+ "[0m /y (" +:+ ESC +:+ "[31m3"
           +:+ ESC +:+ "[0m → " +:+ ESC +:+ "[32m2" +:+ ESC +:+ "[0m)" +:+ LF).
Proof.
  apply (@render_diff_replace flat (differing {[ "y" := PyInt 2 ]} {[ "y" := PyInt 3 ]})
           (patch_operation "replace" "/y") (PyStr "/y") (PyInt 3) (PyInt 2));
    vm_compute; reflexivity.
Defined.

End ReportExamples.
